(** * pycoin.key.Key: a shallow embedding and its verification

    The development follows [pycoin/key/Key.py].  A [Key] is a Python object
    with two immutable attributes (the secret exponent and the public pair),
    a default compression flag and two lazily filled hash160 cache slots.
    Objects live in a heap and are handled through references, so that
    "returns [self]" and "fills the cache of [self]" keep their meaning.

    The collaborators that [Key.py] imports (curve generator, network,
    hash160, the DER codec, hex text) are capabilities: records of functions
    and one type class for the module-level imports. *)

From Stdlib Require Import ZArith Lia List Bool.
From Stdlib Require Import Strings.String Strings.Byte.
From stdpp Require Import base list option.
Import ListNotations.

Local Open Scope Z_scope.

(** ** Python values used by the module *)

Definition bytes := list byte.
Definition text := string.

(** A point of the curve as the generator hands it out: a pair of
    coordinates, [(None, None)] being the point at infinity. *)
Definition Point := (option Z * option Z)%type.

(** The exceptions that can leave a method of [Key].  [InvalidPublicPairError]
    and [InvalidSecretExponentError] are the two classes declared in
    [Key.py]; both derive from [ValueError]. *)
Inductive exception : Type :=
| ValueError (msg : string)
| InvalidPublicPairError
| InvalidSecretExponentError
| RuntimeError (msg : string)
| TypeError
| AttributeError
| OverflowError
| EncodingError
| CodecError (code : Z)
| DanglingReference.

(** [isinstance(e, ValueError)], following the class declarations. *)
Definition is_ValueError (e : exception) : bool :=
  match e with
  | ValueError _ | InvalidPublicPairError | InvalidSecretExponentError => true
  | _ => false
  end.

Inductive result (A : Type) : Type :=
| Ok (a : A)
| Raise (e : exception).
Arguments Ok {A} a.
Arguments Raise {A} e.

Definition result_bind {A B} (r : result A) (k : A -> result B) : result B :=
  match r with
  | Ok a => k a
  | Raise e => Raise e
  end.

Definition result_map {A B} (f : A -> B) (r : result A) : result B :=
  result_bind r (fun a => Ok (f a)).

Notation "'try*' x ':=' c 'in' k" := (result_bind c (fun x => k))
  (at level 10, x name, c at level 100, k at level 200).

(** Handing [None] to a collaborator that expects a value. *)
Definition expect {A} (o : option A) : result A :=
  match o with
  | Some a => Ok a
  | None => Raise TypeError
  end.

(** Truth value of a text and of a byte string: non-empty. *)
Definition text_truthy (s : text) : bool :=
  match s with
  | EmptyString => false
  | String _ _ => true
  end.

Definition bytes_truthy (b : bytes) : bool :=
  match b with
  | [] => false
  | _ :: _ => true
  end.

(** ** pycoin.encoding.bytes32 *)

Module Bytes32.

Definition Z_of_byte (b : byte) : Z := Z.of_N (Byte.to_N b).

Definition byte_of_Z (v : Z) : byte :=
  match Byte.of_N (Z.to_N (v mod 256)) with
  | Some b => b
  | None => x00
  end.

(** [n] bytes, most significant first, of the low [8 n] bits of [v]. *)
Fixpoint big_endian (n : nat) (v : Z) : bytes :=
  match n with
  | O => []
  | S n' => big_endian n' (v / 256) ++ [byte_of_Z (v mod 256)]
  end.

(** Modelled from the spec: [from_bytes_32] of pycoin.encoding.bytes32 is
    not in the source tree; the spec has the digest "interpreted as a
    big-endian integer". *)
Definition from_bytes_32 (v : bytes) : Z :=
  fold_left (fun acc b => acc * 256 + Z_of_byte b) v 0.

(** Modelled from the spec: [to_bytes_32] of pycoin.encoding.bytes32 is not
    in the source tree; the spec has "a fixed-width big-endian byte string"
    of 32 bytes.  A value with no 32-byte encoding is an error. *)
Definition to_bytes_32 (v : Z) : result bytes :=
  if (0 <=? v) && (v <? 2 ^ 256) then Ok (big_endian 32 v)
  else Raise OverflowError.

End Bytes32.

(** ** The curve generator capability *)

Module Generator.

(** What [Key.py] asks of [self._generator]: [order()], the product
    [secret_exponent * generator], [contains_point(x, y)], [sign] and
    [verify].  [sign] returns a pair or raises: a generator refuses a
    digest it cannot sign, and [Key.sign] has no handler around the call.
    [y_for_x] is the one capability the SEC decoder adds. *)
Record t : Type := {
  order : Z;
  rmul : Z -> Point;
  contains_point : Z -> Z -> bool;
  sign : Z -> Z -> result (Z * Z);
  verify : Point -> Z -> Z * Z -> bool;
  (** Modelled from the spec: the decoder "recovers y by solving the curve
      equation and picking the root of matching parity"; the flag asks for
      the odd root. *)
  y_for_x : Z -> bool -> option Z
}.

End Generator.

(** ** The network capability *)

Module Network.

(** [wif_for_blob], [sec_text_for_blob] and [address.for_p2pkh] as used by
    [Key.py]; [truthy] is the value of the network in a condition. *)
Record t : Type := {
  wif_for_blob : bytes -> text;
  sec_text_for_blob : bytes -> text;
  address_for_p2pkh : bytes -> text;
  truthy : bool
}.

End Network.

(** ** pycoin.encoding.sec *)

Module Sec.
Import Bytes32.

(** Modelled from the spec: [is_sec_compressed] is not in the source tree;
    the leading tag [0x02]/[0x03] selects the compressed form. *)
Definition is_sec_compressed (sec : bytes) : bool :=
  match sec with
  | tag :: _ => Byte.eqb tag x02 || Byte.eqb tag x03
  | [] => false
  end.

(** Modelled from the spec: [public_pair_to_sec] is not in the source tree.
    Compressed: tag [0x02] (y even) or [0x03] (y odd), then x on 32 bytes.
    Uncompressed: tag [0x04], then x and y on 32 bytes each. *)
Definition public_pair_to_sec (public_pair : Point) (compressed : bool)
  : result bytes :=
  match public_pair with
  | (Some x, Some y) =>
      try* x_str := to_bytes_32 x in
      if compressed then
        Ok ((if Z.odd y then x03 else x02) :: x_str)
      else
        try* y_str := to_bytes_32 y in
        Ok (x04 :: x_str ++ y_str)
  | _ => Raise TypeError
  end.

(** Modelled from the spec: [sec_to_public_pair] is not in the source tree.
    "Any other leading tag value, truncated length, or a recovered point
    failing curve membership is a decode failure." *)
Definition sec_to_public_pair (sec : bytes) (generator : option Generator.t)
  : result Point :=
  match generator with
  | None => Raise AttributeError
  | Some g =>
      match sec with
      | [] => Raise EncodingError
      | tag :: body =>
          if Byte.eqb tag x04 then
            if (length body =? 64)%nat then
              let x := from_bytes_32 (take 32 body) in
              let y := from_bytes_32 (drop 32 body) in
              if Generator.contains_point g x y then Ok (Some x, Some y)
              else Raise EncodingError
            else Raise EncodingError
          else if Byte.eqb tag x02 || Byte.eqb tag x03 then
            if (length body =? 32)%nat then
              let x := from_bytes_32 body in
              match Generator.y_for_x g x (Byte.eqb tag x03) with
              | Some y =>
                  if Generator.contains_point g x y then Ok (Some x, Some y)
                  else Raise EncodingError
              | None => Raise EncodingError
              end
            else Raise EncodingError
          else Raise EncodingError
      end
  end.

End Sec.

(** ** Module-level imports of Key.py *)

Module Imports.

(** [hash160], [b2h], [sigencode_der] and [sigdecode_der] are imported at
    the top of [Key.py]; [secp256k1_generator] and [get_current_network]
    are the defaults imported inside [__init__]. *)
Class t : Type := {
  hash160 : bytes -> bytes;
  b2h : bytes -> text;
  sigencode_der : Z -> Z -> bytes;
  sigdecode_der : bytes -> result (Z * Z);
  secp256k1_generator : Generator.t;
  get_current_network : Network.t
}.

End Imports.

(** ** Key classes, Key objects and the heap *)

Module KeyClass.

(** The class attributes [_network] and [_generator]; both are [None] on
    the base class. *)
Record t : Type := {
  _network : option Network.t;
  _generator : option Generator.t
}.

Definition base : t := {| _network := None; _generator := None |}.

End KeyClass.

Definition ref := nat.

(** The attributes of a [Key] object once [__init__] has returned.
    [_generator] and [_network] are what the attribute lookup finds: the
    class attribute, or the default stored on the instance. *)
Record obj : Type := {
  __class__ : KeyClass.t;
  _secret_exponent : option Z;
  _public_pair : option Point;
  _is_compressed : bool;
  _hash160_uncompressed : option bytes;
  _hash160_compressed : option bytes;
  _generator : Generator.t;
  _network : Network.t
}.

Abbreviation heap := (list obj).

Definition set_hash160_compressed (v : option bytes) (o : obj) : obj :=
  {| __class__ := __class__ o;
     _secret_exponent := _secret_exponent o;
     _public_pair := _public_pair o;
     _is_compressed := _is_compressed o;
     _hash160_uncompressed := _hash160_uncompressed o;
     _hash160_compressed := v;
     _generator := _generator o;
     _network := _network o |}.

Definition set_hash160_uncompressed (v : option bytes) (o : obj) : obj :=
  {| __class__ := __class__ o;
     _secret_exponent := _secret_exponent o;
     _public_pair := _public_pair o;
     _is_compressed := _is_compressed o;
     _hash160_uncompressed := v;
     _hash160_compressed := _hash160_compressed o;
     _generator := _generator o;
     _network := _network o |}.

(** ** Computations: a heap threaded through, a value or an exception out *)

Definition M (A : Type) : Type := heap -> heap * result A.

Definition ret {A} (a : A) : M A := fun h => (h, Ok a).

Definition raise {A} (e : exception) : M A := fun h => (h, Raise e).

Definition bind {A B} (c : M A) (k : A -> M B) : M B :=
  fun h =>
    match c h with
    | (h', Ok a) => k a h'
    | (h', Raise e) => (h', Raise e)
    end.

Definition lift {A} (r : result A) : M A := fun h => (h, r).

Notation "'let*' x ':=' c 'in' k" := (bind c (fun x => k))
  (at level 10, x name, c at level 100, k at level 200).

(** Reading the object behind a reference.  A Python reference always has
    its object; [DanglingReference] is what the model answers on a number
    that no object of the heap has. *)
Definition deref (self : ref) : M obj :=
  fun h =>
    match h !! self with
    | Some o => (h, Ok o)
    | None => (h, Raise DanglingReference)
    end.

(** Assigning the attributes of the object behind a reference. *)
Definition update (self : ref) (f : obj -> obj) : M unit :=
  fun h =>
    match h !! self with
    | Some o => (<[self := f o]> h, Ok tt)
    | None => (h, Raise DanglingReference)
    end.

(** A fresh object at the end of the heap. *)
Definition alloc (o : obj) : M ref :=
  fun h => (h ++ [o], Ok (length h)).

(** ** class Key *)

Module Key.
Section Methods.

Context {imports : Imports.t}.
Import Bytes32 Sec.

(** [make_subclass]: a subclass with both class attributes set. *)
Definition make_subclass (class_ : KeyClass.t)
    (network : option Network.t) (generator : option Generator.t)
  : KeyClass.t :=
  {| KeyClass._network := network; KeyClass._generator := generator |}.

(** [[secret_exponent, public_pair].count(None)] *)
Definition count_None (secret_exponent : option Z)
    (public_pair : option Point) : nat :=
  ((if secret_exponent is None then 1 else 0)
   + (if public_pair is None then 1 else 0))%nat.

(** [self._generator] in [__init__]: the class attribute, or the default
    when the class has none. *)
Definition generator_of (class_ : KeyClass.t) : Generator.t :=
  match KeyClass._generator class_ with
  | Some g => g
  | None => Imports.secp256k1_generator
  end.

(** [self._network] in [__init__], likewise. *)
Definition network_of (class_ : KeyClass.t) : Network.t :=
  match KeyClass._network class_ with
  | Some n => n
  | None => Imports.get_current_network
  end.

(** [__init__], from its arguments to the initialised object.  An
    exception leaves no object behind. *)
Definition __init__ (class_ : KeyClass.t) (secret_exponent : option Z)
    (public_pair : option Point) (is_compressed : bool) : result obj :=
  if negb (count_None secret_exponent public_pair =? 1)%nat then
    Raise (ValueError
             "exactly one of secret_exponent or public_pair must be passed.")
  else
    let generator := generator_of class_ in
    let network := network_of class_ in
    try* public_pair :=
      match secret_exponent with
      | Some s =>
          if (s <? 1) || (s >=? Generator.order generator) then
            Raise InvalidSecretExponentError
          else Ok (Some (Generator.rmul generator s))
      | None => Ok public_pair
      end in
    match public_pair with
    | None => Raise TypeError
    | Some (Some x, Some y) =>
        if negb (Generator.contains_point generator x y) then
          Raise InvalidPublicPairError
        else
          Ok {| __class__ := class_;
                _secret_exponent := secret_exponent;
                _public_pair := public_pair;
                _is_compressed := is_compressed;
                _hash160_uncompressed := None;
                _hash160_compressed := None;
                _generator := generator;
                _network := network |}
    | Some _ => Raise InvalidPublicPairError
    end.

(** [class_(...)]: the call of the class, a new object or the exception of
    [__init__]. *)
Definition new (class_ : KeyClass.t) (secret_exponent : option Z)
    (public_pair : option Point) (is_compressed : bool) : M ref :=
  let* o := lift (__init__ class_ secret_exponent public_pair is_compressed) in
  alloc o.

Definition from_sec (class_ : KeyClass.t) (sec : bytes) : M ref :=
  let* public_pair :=
    lift (sec_to_public_pair sec (KeyClass._generator class_)) in
  new class_ None (Some public_pair) (is_sec_compressed sec).

Definition secret_exponent (self : ref) : M (option Z) :=
  let* o := deref self in
  ret (_secret_exponent o).

Definition is_private (self : ref) : M bool :=
  let* s := secret_exponent self in
  ret (if s is None then false else true).

Definition is_compressed (self : ref) : M bool :=
  let* o := deref self in
  ret (_is_compressed o).

(** [if is_compressed is None: is_compressed = self.is_compressed()], the
    opening of [wif], [sec] and [hash160]. *)
Definition or_default (self : ref) (is_compressed' : option bool) : M bool :=
  match is_compressed' with
  | None => is_compressed self
  | Some b => ret b
  end.

Definition wif (self : ref) (is_compressed' : option bool) : M (option text) :=
  let* se := secret_exponent self in
  match se with
  | None => ret None
  | Some s =>
      let* compressed := or_default self is_compressed' in
      let* blob := lift (to_bytes_32 s) in
      let blob := if compressed then blob ++ [x01] else blob in
      let* o := deref self in
      ret (Some (Network.wif_for_blob (_network o) blob))
  end.

Definition public_pair (self : ref) : M (option Point) :=
  let* o := deref self in
  ret (_public_pair o).

Definition sec (self : ref) (is_compressed' : option bool) : M (option bytes) :=
  let* compressed := or_default self is_compressed' in
  let* pp := public_pair self in
  match pp with
  | None => ret None
  | Some pp =>
      let* s := lift (public_pair_to_sec pp compressed) in
      ret (Some s)
  end.

Definition sec_as_hex (self : ref) (is_compressed' : option bool) : M text :=
  let* s := sec self is_compressed' in
  let* o := deref self in
  let* blob := lift (expect s) in
  ret (Network.sec_text_for_blob (_network o) blob).

Definition hash160 (self : ref) (is_compressed' : option bool)
  : M (option bytes) :=
  let* compressed := or_default self is_compressed' in
  if compressed then
    let* o := deref self in
    let* _ :=
      match _hash160_compressed o with
      | None =>
          let* s := sec self (Some compressed) in
          let* blob := lift (expect s) in
          update self (set_hash160_compressed (Some (Imports.hash160 blob)))
      | Some _ => ret tt
      end in
    let* o := deref self in
    ret (_hash160_compressed o)
  else
    let* o := deref self in
    let* _ :=
      match _hash160_uncompressed o with
      | None =>
          let* s := sec self (Some compressed) in
          let* blob := lift (expect s) in
          update self (set_hash160_uncompressed (Some (Imports.hash160 blob)))
      | Some _ => ret tt
      end in
    let* o := deref self in
    ret (_hash160_uncompressed o).

Definition fingerprint (self : ref) (is_compressed' : option bool) : M bytes :=
  let* h := hash160 self is_compressed' in
  let* h := lift (expect h) in
  ret (take 4 h).

Definition address (self : ref) (is_compressed' : option bool) : M text :=
  let* o := deref self in
  let* h := hash160 self is_compressed' in
  let* h := lift (expect h) in
  ret (Network.address_for_p2pkh (_network o) h).

Definition as_text (self : ref) : M (option text) :=
  let* se := secret_exponent self in
  if (match se with Some s => negb (s =? 0) | None => false end) then
    wif self None
  else
    let* sec_hex := sec_as_hex self None in
    if text_truthy sec_hex then ret (Some sec_hex)
    else
      let* a := address self None in
      ret (Some a).

Definition public_copy (self : ref) : M ref :=
  let* se := secret_exponent self in
  match se with
  | None => ret self
  | Some _ =>
      let* o := deref self in
      let* pp := public_pair self in
      let* compressed := is_compressed self in
      new (__class__ o) None pp compressed
  end.

Definition subkey_for_path (self : ref) (path : text) : M ref :=
  ret self.

Definition subkey (self : ref) (path_to_subkey : text) : M ref :=
  ret self.

(** The generator function [subkeys]: the references it yields, in order. *)
Definition subkeys (self : ref) (path_to_subkeys : text) : M (list ref) :=
  ret [self].

Definition sign (self : ref) (h : bytes) : M bytes :=
  let* private := is_private self in
  if negb private then
    raise (RuntimeError "Key must be private to be able to sign")
  else
    let val := from_bytes_32 h in
    let* o := deref self in
    let* se := secret_exponent self in
    let* se := lift (expect se) in
    let* rs := lift (Generator.sign (_generator o) se val) in
    let '(r, s) := rs in
    ret (Imports.sigencode_der r s).

Definition verify (self : ref) (h : bytes) (sig : bytes) : M bool :=
  let val := from_bytes_32 h in
  let* pubkey := public_pair self in
  let* o := deref self in
  let* rs := lift (Imports.sigdecode_der sig) in
  let* pubkey := lift (expect pubkey) in
  ret (Generator.verify (_generator o) pubkey val rs).

(** ["%s" % s]: [None] prints as the text [None]. *)
Definition percent_s (s : option text) : text :=
  match s with
  | Some t => t
  | None => "None"%string
  end.

Definition __repr__ (self : ref) : M text :=
  let* r := public_copy self in
  let* o := deref r in
  let* s :=
    if Network.truthy (_network o) then as_text r
    else
      let* b := sec r None in
      if (match b with Some b => bytes_truthy b | None => false end) then
        let* b := sec r None in
        let* b := lift (expect b) in
        ret (Some (Imports.b2h b))
      else
        let* d := hash160 r None in
        let* d := lift (expect d) in
        ret (Some (Imports.b2h d)) in
  let* private := is_private self in
  if private then ret ("private_for <" ++ percent_s s ++ ">")%string
  else ret ("<" ++ percent_s s ++ ">")%string.

End Methods.
End Key.

(** ** Client programs: sequences of calls *)

(** Every way a client can use the class: the two ways to make a [Key] and
    the methods of an existing one. *)
Inductive call : Type :=
| call_new (class_ : KeyClass.t) (secret_exponent : option Z)
    (public_pair : option Point) (is_compressed : bool)
| call_from_sec (class_ : KeyClass.t) (sec : bytes)
| call_is_private (self : ref)
| call_secret_exponent (self : ref)
| call_wif (self : ref) (is_compressed : option bool)
| call_public_pair (self : ref)
| call_sec (self : ref) (is_compressed : option bool)
| call_sec_as_hex (self : ref) (is_compressed : option bool)
| call_hash160 (self : ref) (is_compressed : option bool)
| call_fingerprint (self : ref) (is_compressed : option bool)
| call_address (self : ref) (is_compressed : option bool)
| call_as_text (self : ref)
| call_public_copy (self : ref)
| call_subkey_for_path (self : ref) (path : text)
| call_subkey (self : ref) (path : text)
| call_subkeys (self : ref) (path : text)
| call_sign (self : ref) (h : bytes)
| call_verify (self : ref) (h : bytes) (sig : bytes)
| call_is_compressed (self : ref)
| call_repr (self : ref).

(** The heap a computation leaves, whatever it returns or raises. *)
Definition effect {A} (c : M A) (h : heap) : heap := fst (c h).

Section Programs.

Context {imports : Imports.t}.

Definition run_call (c : call) : heap -> heap :=
  match c with
  | call_new class_ se pp ic => effect (Key.new class_ se pp ic)
  | call_from_sec class_ s => effect (Key.from_sec class_ s)
  | call_is_private self => effect (Key.is_private self)
  | call_secret_exponent self => effect (Key.secret_exponent self)
  | call_wif self ic => effect (Key.wif self ic)
  | call_public_pair self => effect (Key.public_pair self)
  | call_sec self ic => effect (Key.sec self ic)
  | call_sec_as_hex self ic => effect (Key.sec_as_hex self ic)
  | call_hash160 self ic => effect (Key.hash160 self ic)
  | call_fingerprint self ic => effect (Key.fingerprint self ic)
  | call_address self ic => effect (Key.address self ic)
  | call_as_text self => effect (Key.as_text self)
  | call_public_copy self => effect (Key.public_copy self)
  | call_subkey_for_path self path => effect (Key.subkey_for_path self path)
  | call_subkey self path => effect (Key.subkey self path)
  | call_subkeys self path => effect (Key.subkeys self path)
  | call_sign self h => effect (Key.sign self h)
  | call_verify self h sig => effect (Key.verify self h sig)
  | call_is_compressed self => effect (Key.is_compressed self)
  | call_repr self => effect (Key.__repr__ self)
  end.

Definition run (calls : list call) (h : heap) : heap :=
  fold_left (fun h c => run_call c h) calls h.

(** The heaps a program can build, starting with no object at all. *)
Definition reachable (h : heap) : Prop :=
  exists calls, h = run calls [].

(** *** What a call may change *)

(** The attributes other than the two cache slots. *)
Definition same_core (o o' : obj) : Prop :=
  __class__ o' = __class__ o /\
  _secret_exponent o' = _secret_exponent o /\
  _public_pair o' = _public_pair o /\
  _is_compressed o' = _is_compressed o /\
  _generator o' = _generator o /\
  _network o' = _network o.

(** The cache slot of a compression style. *)
Definition slot (compressed : bool) (o : obj) : option bytes :=
  if compressed then _hash160_compressed o else _hash160_uncompressed o.

(** A filled slot keeps its content. *)
Definition cache_kept (o o' : obj) : Prop :=
  forall compressed v, slot compressed o = Some v -> slot compressed o' = Some v.

(** [h'] has every object of [h], at the same reference, changed at most
    in its cache slots, and these at most from empty to filled. *)
Definition extends (h h' : heap) : Prop :=
  forall r o, h !! r = Some o ->
    exists o', h' !! r = Some o' /\ same_core o o' /\ cache_kept o o'.

(** What [self.sec(is_compressed=compressed)] returns on an object. *)
Definition sec_of (o : obj) (compressed : bool) : result (option bytes) :=
  match _public_pair o with
  | None => Ok None
  | Some pp => result_map Some (Sec.public_pair_to_sec pp compressed)
  end.

(** The digest of an object at a style: the short hash of its SEC bytes. *)
Definition digest_of (o : obj) (compressed : bool) : result bytes :=
  try* s := sec_of o compressed in
  try* blob := expect s in
  Ok (Imports.hash160 blob).

(** The assignment that fills the slot of a style. *)
Definition fill (compressed : bool) (v : bytes) (o : obj) : obj :=
  if compressed then set_hash160_compressed (Some v) o
  else set_hash160_uncompressed (Some v) o.

(** A filled slot holds the digest of its style. *)
Definition coherent (o : obj) : Prop :=
  forall compressed v,
    slot compressed o = Some v -> digest_of o compressed = Ok v.

Definition heap_coherent (h : heap) : Prop :=
  forall r o, h !! r = Some o -> coherent o.

(** A change of the heap that clients can live with. *)
Definition step_ok (h h' : heap) : Prop :=
  extends h h' /\ (heap_coherent h -> heap_coherent h').

(** A computation all of whose runs change the heap that way. *)
Definition keeps {A} (c : M A) : Prop :=
  forall h h' r, c h = (h', r) -> step_ok h h'.

(** The compression style a call works at. *)
Definition style_of (o : obj) (is_compressed : option bool) : bool :=
  match is_compressed with
  | Some b => b
  | None => _is_compressed o
  end.

End Programs.

(** ** A generator that keeps the promises of a curve group *)

(** The multiples [s * G], [1 <= s < order], are finite points of the curve,
    with coordinates that fit 32 bytes, and the root finder returns their
    ordinate when asked for its parity. *)
Definition lawful (g : Generator.t) : Prop :=
  forall s, 1 <= s < Generator.order g ->
    exists x y,
      Generator.rmul g s = (Some x, Some y) /\
      Generator.contains_point g x y = true /\
      0 <= x < 2 ^ 256 /\ 0 <= y < 2 ^ 256 /\
      Generator.y_for_x g x (Z.odd y) = Some y.

(** ** Vocabulary of the statements *)

(** The error of a constructor call with both or neither of the two
    arguments: the plain [ValueError] raised at the top of [__init__]. *)
Definition InvalidArguments : exception :=
  ValueError "exactly one of secret_exponent or public_pair must be passed.".

(** The error of [sign] on a key without secret exponent. *)
Definition NotPrivate : exception :=
  RuntimeError "Key must be private to be able to sign".

(** A pair that passes the last check of [__init__]: no coordinate is
    [None] and the generator contains the point. *)
Definition valid_point (g : Generator.t) (pp : Point) : bool :=
  match pp with
  | (Some x, Some y) => Generator.contains_point g x y
  | _ => false
  end.

(** The object [__init__] builds once every check has passed. *)
Definition fresh_key {imports : Imports.t} (class_ : KeyClass.t)
    (secret_exponent : option Z) (pp : Point) (is_compressed : bool) : obj :=
  {| __class__ := class_;
     _secret_exponent := secret_exponent;
     _public_pair := Some pp;
     _is_compressed := is_compressed;
     _hash160_uncompressed := None;
     _hash160_compressed := None;
     _generator := Key.generator_of class_;
     _network := Key.network_of class_ |}.

(** The promise of [lawful] at one scalar, as a check that runs. *)
Definition lawful_at (g : Generator.t) (s : Z) : bool :=
  match Generator.rmul g s with
  | (Some x, Some y) =>
      Generator.contains_point g x y
      && (0 <=? x) && (x <? 2 ^ 256) && (0 <=? y) && (y <? 2 ^ 256)
      && match Generator.y_for_x g x (Z.odd y) with
         | Some y' => y' =? y
         | None => false
         end
  | _ => false
  end.

(** ** Sample collaborators

    Concrete collaborators on which the statements below are exercised:
    short Weierstrass curves over a prime field with textbook ECDSA, a
    fixed-width signature codec, hex text and a plain network. *)

Module Samples.
Import Bytes32.

Fixpoint pow_mod_pos (b : Z) (e : positive) (m : Z) : Z :=
  match e with
  | xH => b mod m
  | xO e' => let r := pow_mod_pos b e' m in r * r mod m
  | xI e' => let r := pow_mod_pos b e' m in (r * r mod m) * b mod m
  end.

Definition pow_mod (b e m : Z) : Z :=
  match e with
  | Zpos e' => pow_mod_pos b e' m
  | _ => 1 mod m
  end.

(** Inverse modulo a prime, by Fermat's little theorem. *)
Definition inv_mod (v m : Z) : Z := pow_mod v (m - 2) m.

(** [y^2 = x^3 + a x + b] over the integers modulo the prime [p], with a
    base point [(gx, gy)] of prime order [n]; [p] is 3 modulo 4. *)
Record curve : Type := {
  p : Z; a : Z; b : Z; gx : Z; gy : Z; n : Z
}.

Section Arithmetic.

Variable c : curve.

Definition infinity : Point := (None, None).

Definition base_point : Point := (Some (gx c), Some (gy c)).

Definition add (P Q : Point) : Point :=
  match P, Q with
  | (Some x1, Some y1), (Some x2, Some y2) =>
      if x1 =? x2 then
        if (y1 + y2) mod p c =? 0 then infinity
        else
          let l := (3 * x1 * x1 + a c) * inv_mod (2 * y1) (p c) mod p c in
          let x3 := (l * l - 2 * x1) mod p c in
          (Some x3, Some ((l * (x1 - x3) - y1) mod p c))
      else
        let l := (y2 - y1) * inv_mod (x2 - x1) (p c) mod p c in
        let x3 := (l * l - x1 - x2) mod p c in
        (Some x3, Some ((l * (x1 - x3) - y1) mod p c))
  | (Some _, Some _), _ => P
  | _, _ => Q
  end.

Fixpoint mul_pos (k : positive) (P : Point) : Point :=
  match k with
  | xH => P
  | xO k' => let D := mul_pos k' P in add D D
  | xI k' => let D := mul_pos k' P in add (add D D) P
  end.

Definition mul (k : Z) (P : Point) : Point :=
  match k with
  | Zpos k' => mul_pos k' P
  | _ => infinity
  end.

Definition on_curve (x y : Z) : bool :=
  (y * y - (x * x * x + a c * x + b c)) mod p c =? 0.

(** The square root of the right-hand side, of the parity asked for. *)
Definition root (x : Z) (odd : bool) : option Z :=
  let alpha := (x * x * x + a c * x + b c) mod p c in
  let beta := pow_mod alpha ((p c + 1) / 4) (p c) in
  if beta * beta mod p c =? alpha then
    if Bool.eqb (Z.odd beta) odd then Some beta
    else if beta =? 0 then None
    else Some (p c - beta)
  else None.

(** Textbook ECDSA; the nonce is a function of the key and the digest.  A
    digest that reads as 0 is refused with a [ValueError]. *)
Definition ecdsa_sign (secret val : Z) : result (Z * Z) :=
  if val =? 0 then Raise (ValueError EmptyString)
  else
    let k := (val + secret) mod (n c - 1) + 1 in
    let r := match mul k base_point with
             | (Some x, _) => x mod n c
             | _ => 0
             end in
    Ok (r, inv_mod k (n c) * (val + r * secret) mod n c).

Definition ecdsa_verify (P : Point) (val : Z) (rs : Z * Z) : bool :=
  let '(r, s) := rs in
  if (1 <=? r) && (r <? n c) && (1 <=? s) && (s <? n c) then
    let w := inv_mod s (n c) in
    match add (mul (val * w mod n c) base_point)
              (mul (r * w mod n c) P) with
    | (Some x, _) => x mod n c =? r
    | _ => false
    end
  else false.

Definition generator : Generator.t :=
  {| Generator.order := n c;
     Generator.rmul := fun s => mul s base_point;
     Generator.contains_point := on_curve;
     Generator.sign := ecdsa_sign;
     Generator.verify := ecdsa_verify;
     Generator.y_for_x := root |}.

End Arithmetic.

(** The curve secp256k1. *)
Definition secp256k1 : curve :=
  {| p := 2 ^ 256 - 2 ^ 32 - 977;
     a := 0;
     b := 7;
     gx := 0x79be667ef9dcbbac55a06295ce870b07029bfcdb2dce28d959f2815b16f81798;
     gy := 0x483ada7726a3c4655da4fbfc0e1108a8fd17b448a68554199c47d08ffb10d4b8;
     n := 0xfffffffffffffffffffffffffffffffebaaedce6af48a03bbfd25e8cd0364141 |}.

(** The same equation over the integers modulo 43: a group of 31 points. *)
Definition tiny : curve :=
  {| p := 43; a := 0; b := 7; gx := 2; gy := 12; n := 31 |}.

Definition hex_digit (d : Z) : Ascii.ascii :=
  Ascii.ascii_of_N (Z.to_N (if d <? 10 then 48 + d else 87 + d)).

Definition hex (v : bytes) : text :=
  fold_right
    (fun x acc =>
       String (hex_digit (Z_of_byte x / 16))
         (String (hex_digit (Z_of_byte x mod 16)) acc))
    EmptyString v.

(** A 20-byte digest, standing for the short hash. *)
Definition fold_hash (v : bytes) : bytes :=
  big_endian 20
    (fold_left (fun acc x => (acc * 257 + Z_of_byte x + 1) mod 2 ^ 160) v 0).

(** A signature as [r] and [s] on 32 bytes each; anything else does not
    decode. *)
Definition encode_rs (r s : Z) : bytes := big_endian 32 r ++ big_endian 32 s.

Definition decode_rs (sig : bytes) : result (Z * Z) :=
  if (length sig =? 64)%nat then
    Ok (from_bytes_32 (take 32 sig), from_bytes_32 (drop 32 sig))
  else Raise (CodecError (Z.of_nat (length sig))).

Definition network : Network.t :=
  {| Network.wif_for_blob := fun blob => ("wif:" ++ hex blob)%string;
     Network.sec_text_for_blob := hex;
     Network.address_for_p2pkh := fun d => ("p2pkh:" ++ hex d)%string;
     Network.truthy := true |}.

Definition imports : Imports.t :=
  {| Imports.hash160 := fold_hash;
     Imports.b2h := hex;
     Imports.sigencode_der := encode_rs;
     Imports.sigdecode_der := decode_rs;
     Imports.secp256k1_generator := generator secp256k1;
     Imports.get_current_network := network |}.

Definition tiny_generator : Generator.t := generator tiny.

(** A class bound to secp256k1. *)
Definition Secp256k1Key : KeyClass.t :=
  Key.make_subclass KeyClass.base (Some network)
    (Some (generator secp256k1)).

(** A class bound to the small curve, as [make_subclass] builds it. *)
Definition TinyKey : KeyClass.t :=
  Key.make_subclass KeyClass.base (Some network) (Some tiny_generator).

(** A 32-byte digest. *)
Definition digest1 : bytes := repeat x00 31 ++ [x2a].

(** The 32-byte digest that reads as 0. *)
Definition digest0 : bytes := repeat x00 32.

(** A client that makes a private key and a public-only key. *)
Definition program1 : list call :=
  [call_new TinyKey (Some 5) None true;
   call_new TinyKey None (Some (Some 7, Some 7)) false].

Definition heap1 : heap := run (imports := imports) program1 [].

Definition private_key : obj :=
  fresh_key (imports := imports) TinyKey (Some 5) (Some 12, Some 12) true.

Definition public_key : obj :=
  fresh_key (imports := imports) TinyKey None (Some 7, Some 7) false.

End Samples.

(** ** Vocabulary of the further properties *)

(** A property of every object of the heap. *)
Definition heap_all (P : obj -> Prop) (h : heap) : Prop :=
  forall r o, h !! r = Some o -> P o.

(** A computation that keeps such a property, whatever it returns. *)
Definition maintains (P : obj -> Prop) {A} (c : M A) : Prop :=
  forall h h' r, heap_all P h -> c h = (h', r) -> heap_all P h'.

(** What the checks of [__init__] leave true of an object: the generator and
    the network are those its class resolves to, the public pair is finite
    and of the curve, and a secret exponent is in range and has the public
    pair for its multiple of the generator. *)
Definition valid_key {imports : Imports.t} (o : obj) : Prop :=
  _generator o = Key.generator_of (__class__ o) /\
  _network o = Key.network_of (__class__ o) /\
  exists pp,
    _public_pair o = Some pp /\
    valid_point (_generator o) pp = true /\
    forall s, _secret_exponent o = Some s ->
      1 <= s < Generator.order (_generator o) /\
      pp = Generator.rmul (_generator o) s.

(** A computation that leaves the heap exactly as it was. *)
Definition silent {A} (c : M A) : Prop :=
  forall h, fst (c h) = h.

(** The calls whose method has no assignment and no constructor call. *)
Definition read_only (c : call) : bool :=
  match c with
  | call_is_private _ | call_secret_exponent _ | call_wif _ _
  | call_public_pair _ | call_sec _ _ | call_sec_as_hex _ _
  | call_subkey_for_path _ _ | call_subkey _ _ | call_subkeys _ _
  | call_sign _ _ | call_verify _ _ _ | call_is_compressed _ => true
  | _ => false
  end.

(** The text between the angle brackets of [__repr__], computed on the
    public copy [r]: the three branches of the method. *)
Definition repr_text {imports : Imports.t} (r : ref) (o : obj)
  : M (option text) :=
  if Network.truthy (_network o) then Key.as_text r
  else
    let* b := Key.sec r None in
    if (match b with Some b => bytes_truthy b | None => false end) then
      let* b := Key.sec r None in
      let* b := lift (expect b) in
      ret (Some (Imports.b2h b))
    else
      let* d := Key.hash160 r None in
      let* d := lift (expect d) in
      ret (Some (Imports.b2h d)).

(** The key a call is made on; a constructor call is made on none. *)
Definition target (c : call) : option ref :=
  match c with
  | call_new _ _ _ _ | call_from_sec _ _ => None
  | call_is_private self | call_secret_exponent self | call_wif self _
  | call_public_pair self | call_sec self _ | call_sec_as_hex self _
  | call_hash160 self _ | call_fingerprint self _ | call_address self _
  | call_as_text self | call_public_copy self
  | call_subkey_for_path self _ | call_subkey self _ | call_subkeys self _
  | call_sign self _ | call_verify self _ _ | call_is_compressed self
  | call_repr self => Some self
  end.

(** A computation that leaves every object of the heap as it is, cache
    slots included, but possibly the object behind [r]. *)
Definition apart (r : option ref) {A} (c : M A) : Prop :=
  forall h h' res i o,
    c h = (h', res) -> h !! i = Some o -> Some i <> r -> h' !! i = Some o.

(** * Properties *)

Section Construction.

Context {imports : Imports.t}.

Lemma new_unfold class_ se pp ic h :
  Key.new class_ se pp ic h =
  match Key.__init__ class_ se pp ic with
  | Ok o => (h ++ [o], Ok (length h))
  | Raise e => (h, Raise e)
  end.
Proof.
  unfold Key.new, bind, lift, alloc.
  destruct (Key.__init__ class_ se pp ic); reflexivity.
Qed.

(** The last check of [__init__], on a pair that was supplied. *)
Lemma init_public class_ pp ic :
  Key.__init__ class_ None (Some pp) ic =
  if valid_point (Key.generator_of class_) pp
  then Ok (fresh_key class_ None pp ic)
  else Raise InvalidPublicPairError.
Proof.
  unfold Key.__init__, valid_point, fresh_key. simpl.
  destruct pp as [[x|] [y|]]; try reflexivity.
  destruct (Generator.contains_point _ x y); reflexivity.
Qed.

(** The two checks of [__init__] on a secret exponent. *)
Lemma init_secret class_ s ic :
  Key.__init__ class_ (Some s) None ic =
  if (s <? 1) || (s >=? Generator.order (Key.generator_of class_)) then
    Raise InvalidSecretExponentError
  else if valid_point (Key.generator_of class_)
            (Generator.rmul (Key.generator_of class_) s)
  then Ok (fresh_key class_ (Some s)
             (Generator.rmul (Key.generator_of class_) s) ic)
  else Raise InvalidPublicPairError.
Proof.
  unfold Key.__init__, valid_point, fresh_key. simpl.
  destruct ((s <? 1) || (s >=? _)); [reflexivity|]. simpl.
  destruct (Generator.rmul _ s) as [[x|] [y|]]; try reflexivity.
  destruct (Generator.contains_point _ x y); reflexivity.
Qed.

Lemma range_check_fails s n :
  (s <? 1) || (s >=? n) = true <-> s < 1 \/ n <= s.
Proof.
  rewrite orb_true_iff, Z.ltb_lt, Z.geb_leb, Z.leb_le. reflexivity.
Qed.

Lemma range_check_passes s n :
  (s <? 1) || (s >=? n) = false <-> 1 <= s < n.
Proof.
  rewrite orb_false_iff, Z.ltb_ge, Z.geb_leb, Z.leb_gt. reflexivity.
Qed.

(** C3: a constructor call with both [secret_exponent] and [public_pair],
    or with neither, raises the [ValueError] of the argument check,
    whatever the other arguments are; no object is created, and the error
    is neither [InvalidSecretExponentError] nor [InvalidPublicPairError]. *)
Theorem new_both_or_neither class_ (s : Z) (pp : Point) ic h :
  Key.new class_ (Some s) (Some pp) ic h = (h, Raise InvalidArguments) /\
  Key.new class_ None None ic h = (h, Raise InvalidArguments) /\
  InvalidArguments <> InvalidSecretExponentError /\
  InvalidArguments <> InvalidPublicPairError.
Proof.
  rewrite !new_unfold. repeat split; discriminate.
Qed.

(** C4: a secret exponent below 1 or not below the order of the generator
    makes the constructor raise [InvalidSecretExponentError]; a secret
    exponent in range passes that check: the call then raises
    [InvalidPublicPairError] or creates the key holding the exponent and
    its multiple of the generator. *)
Theorem new_secret_exponent_range class_ s ic h :
  let g := Key.generator_of class_ in
  (s < 1 \/ Generator.order g <= s ->
     Key.new class_ (Some s) None ic h
     = (h, Raise InvalidSecretExponentError)) /\
  (1 <= s < Generator.order g ->
     snd (Key.new class_ (Some s) None ic h)
     <> Raise InvalidSecretExponentError /\
     (Key.new class_ (Some s) None ic h = (h, Raise InvalidPublicPairError) \/
      Key.new class_ (Some s) None ic h
      = (h ++ [fresh_key class_ (Some s) (Generator.rmul g s) ic],
         Ok (length h)))).
Proof.
  intros g. rewrite new_unfold, init_secret. fold g. split; intros Hs.
  - apply range_check_fails in Hs. rewrite Hs. reflexivity.
  - apply range_check_passes in Hs. rewrite Hs.
    destruct (valid_point g (Generator.rmul g s)); simpl.
    + split; [discriminate | right; reflexivity].
    + split; [discriminate | left; reflexivity].
Qed.

(** C5: the public pair of a constructor call, supplied or derived from a
    secret exponent in range, is checked: the point at infinity, and any
    pair the generator does not contain, raise [InvalidPublicPairError];
    otherwise the key is created with that pair, and the generator of the
    key contains it. *)
Theorem new_public_pair_checked class_ ic h :
  let g := Key.generator_of class_ in
  Key.new class_ None (Some (None, None)) ic h
  = (h, Raise InvalidPublicPairError) /\
  (forall pp,
      (valid_point g pp = false ->
         Key.new class_ None (Some pp) ic h
         = (h, Raise InvalidPublicPairError)) /\
      (valid_point g pp = true ->
         Key.new class_ None (Some pp) ic h
         = (h ++ [fresh_key class_ None pp ic], Ok (length h)))) /\
  (forall s, 1 <= s < Generator.order g ->
      (valid_point g (Generator.rmul g s) = false ->
         Key.new class_ (Some s) None ic h
         = (h, Raise InvalidPublicPairError)) /\
      (valid_point g (Generator.rmul g s) = true ->
         Key.new class_ (Some s) None ic h
         = (h ++ [fresh_key class_ (Some s) (Generator.rmul g s) ic],
            Ok (length h)))) /\
  (forall se pp' r h' o,
      Key.new class_ se pp' ic h = (h', Ok r) -> h' !! r = Some o ->
      exists x y,
        _public_pair o = Some (Some x, Some y) /\
        Generator.contains_point (_generator o) x y = true).
Proof.
  intros g. split; [|split; [|split]].
  - rewrite new_unfold, init_public. reflexivity.
  - intros pp. rewrite new_unfold, init_public. fold g.
    split; intros ->; reflexivity.
  - intros s Hs. rewrite new_unfold, init_secret. fold g.
    apply range_check_passes in Hs. rewrite Hs.
    split; intros ->; reflexivity.
  - intros se pp' r h' o. rewrite new_unfold.
    destruct (Key.__init__ class_ se pp' ic) as [o'|e] eqn:Hinit;
      [|discriminate].
    intros [= <- <-]. rewrite lookup_app_r, Nat.sub_diag by lia.
    intros [= <-]. revert Hinit.
    destruct se as [s|], pp' as [pp'|]; try discriminate.
    + rewrite init_secret. fold g.
      destruct ((s <? 1) || (s >=? Generator.order g)); [discriminate|].
      destruct (Generator.rmul g s) as [[x|] [y|]]; simpl; try discriminate.
      destruct (Generator.contains_point g x y) eqn:Hc; [|discriminate].
      intros [= <-]. exists x, y. split; [reflexivity | exact Hc].
    + rewrite init_public. fold g.
      destruct pp' as [[x|] [y|]]; simpl; try discriminate.
      destruct (Generator.contains_point g x y) eqn:Hc; [|discriminate].
      intros [= <-]. exists x, y. split; [reflexivity | exact Hc].
Qed.

End Construction.

Section Methods.

Context {imports : Imports.t}.
Import Bytes32.

Variables (h : heap) (self : ref) (o : obj).
Hypothesis Hself : h !! self = Some o.

Lemma deref_eq : deref self h = (h, Ok o).
Proof using Hself. unfold deref. rewrite Hself. reflexivity. Qed.

Lemma secret_exponent_eq :
  Key.secret_exponent self h = (h, Ok (_secret_exponent o)).
Proof using Hself.
  unfold Key.secret_exponent, bind. rewrite deref_eq. reflexivity.
Qed.

Lemma is_private_eq :
  Key.is_private self h
  = (h, Ok (if _secret_exponent o is None then false else true)).
Proof using Hself.
  unfold Key.is_private, bind. rewrite secret_exponent_eq. reflexivity.
Qed.

Lemma is_compressed_eq :
  Key.is_compressed self h = (h, Ok (_is_compressed o)).
Proof using Hself.
  unfold Key.is_compressed, bind. rewrite deref_eq. reflexivity.
Qed.

Lemma or_default_eq ic :
  Key.or_default self ic h = (h, Ok (style_of o ic)).
Proof using Hself.
  destruct ic; simpl; [reflexivity | apply is_compressed_eq].
Qed.

Lemma public_pair_eq :
  Key.public_pair self h = (h, Ok (_public_pair o)).
Proof using Hself.
  unfold Key.public_pair, bind. rewrite deref_eq. reflexivity.
Qed.

(** [sec] reads the object and leaves the heap as it is. *)
Lemma sec_eq ic : Key.sec self ic h = (h, sec_of o (style_of o ic)).
Proof using Hself.
  unfold Key.sec, bind, sec_of. rewrite or_default_eq, public_pair_eq.
  destruct (_public_pair o) as [pp|]; [|reflexivity].
  unfold lift, result_map.
  destruct (Sec.public_pair_to_sec pp _); reflexivity.
Qed.

Lemma wif_eq ic :
  Key.wif self ic h =
  (h, match _secret_exponent o with
      | None => Ok None
      | Some s =>
          try* blob := to_bytes_32 s in
          Ok (Some (Network.wif_for_blob (_network o)
                      (if style_of o ic then blob ++ [x01] else blob)))
      end).
Proof using Hself.
  unfold Key.wif, bind. rewrite secret_exponent_eq.
  destruct (_secret_exponent o) as [s|]; [|reflexivity].
  rewrite or_default_eq. unfold lift.
  destruct (to_bytes_32 s); simpl; [|reflexivity].
  rewrite deref_eq. reflexivity.
Qed.

Lemma sign_eq digest :
  Key.sign self digest h =
  (h, match _secret_exponent o with
      | None => Raise NotPrivate
      | Some s =>
          try* rs := Generator.sign (_generator o) s (from_bytes_32 digest) in
          Ok (Imports.sigencode_der (fst rs) (snd rs))
      end).
Proof using Hself.
  unfold Key.sign, bind. rewrite is_private_eq.
  destruct (_secret_exponent o) as [s|] eqn:Hs; simpl; [|reflexivity].
  rewrite deref_eq, secret_exponent_eq, Hs. simpl.
  destruct (Generator.sign _ s _) as [[r s']|e]; reflexivity.
Qed.

Lemma verify_eq digest sig :
  Key.verify self digest sig h =
  (h, try* rs := Imports.sigdecode_der sig in
      try* pubkey := expect (_public_pair o) in
      Ok (Generator.verify (_generator o) pubkey (from_bytes_32 digest) rs)).
Proof using Hself.
  unfold Key.verify, bind. rewrite public_pair_eq, deref_eq. unfold lift.
  destruct (Imports.sigdecode_der sig); simpl; [|reflexivity].
  destruct (_public_pair o); reflexivity.
Qed.

End Methods.

(** ** Big-endian bytes *)

Section BigEndian.
Import Bytes32.

Lemma Z_of_byte_range x : 0 <= Z_of_byte x < 256.
Proof.
  unfold Z_of_byte. pose proof (Byte.to_N_bounded x). lia.
Qed.

Lemma Z_of_byte_of_Z v : Z_of_byte (byte_of_Z v) = v mod 256.
Proof.
  unfold Z_of_byte, byte_of_Z.
  assert (Hr : 0 <= v mod 256 < 256) by (apply Z.mod_pos_bound; lia).
  destruct (Byte.of_N (Z.to_N (v mod 256))) as [x|] eqn:Hx.
  - apply Byte.to_of_N in Hx. rewrite Hx. lia.
  - apply Byte.of_N_None_iff in Hx. lia.
Qed.

Lemma from_bytes_32_snoc hi lo :
  from_bytes_32 (hi ++ [lo]) = from_bytes_32 hi * 256 + Z_of_byte lo.
Proof. unfold from_bytes_32. rewrite fold_left_app. reflexivity. Qed.

Lemma big_endian_length n v : length (big_endian n v) = n.
Proof.
  revert v. induction n as [|n IH]; intros v; simpl; [reflexivity|].
  rewrite length_app, IH. simpl. lia.
Qed.

Lemma from_big_endian n v :
  from_bytes_32 (big_endian n v) = v mod 256 ^ Z.of_nat n.
Proof.
  revert v. induction n as [|n IH]; intros v.
  - simpl. rewrite Z.mod_1_r. reflexivity.
  - cbn [big_endian]. rewrite from_bytes_32_snoc, IH, Z_of_byte_of_Z.
    rewrite Nat2Z.inj_succ, Z.pow_succ_r by lia.
    rewrite (Z.rem_mul_r v 256 (256 ^ Z.of_nat n))
      by (try lia; apply Z.pow_pos_nonneg; lia).
    rewrite Zmod_mod. ring.
Qed.

Lemma to_bytes_32_ok v :
  0 <= v < 2 ^ 256 ->
  to_bytes_32 v = Ok (big_endian 32 v) /\
  length (big_endian 32 v) = 32%nat /\
  from_bytes_32 (big_endian 32 v) = v.
Proof.
  intros Hv. unfold to_bytes_32.
  assert (H1 : (0 <=? v) = true) by (apply Z.leb_le; lia).
  assert (H2 : (v <? 2 ^ 256) = true) by (apply Z.ltb_lt; lia).
  rewrite H1, H2. cbn [andb]. split; [reflexivity|]. split.
  - apply big_endian_length.
  - rewrite from_big_endian. apply Z.mod_small.
    change (256 ^ Z.of_nat 32) with (2 ^ 256). exact Hv.
Qed.

End BigEndian.

Section Formats.

Context {imports : Imports.t}.
Import Bytes32.

(** C10: on the base class the three derivation methods are the identity:
    [subkey_for_path] and [subkey] return the reference they were called
    on, [subkeys] yields that reference once and nothing else, and no
    object of the heap changes. *)
Theorem subkey_methods_return_self (h : heap) (self : ref) (path : text) :
  Key.subkey_for_path self path h = (h, Ok self) /\
  Key.subkey self path h = (h, Ok self) /\
  Key.subkeys self path h = (h, Ok [self]).
Proof. repeat split. Qed.

(** C6, as the code has it: on a key without secret exponent [sign] raises
    the [RuntimeError] of a key that is not private, and changes nothing.
    On a private key and a 32-byte digest it calls [sign] of the generator
    with the secret exponent and the digest read as a big-endian integer:
    when the generator returns a pair [(r, s)], [sign] returns its codec
    encoding; when the generator raises, as it does on a digest it refuses,
    that exception leaves [sign], which has no handler.  The heap is
    unchanged in every case. *)
Theorem sign_private_or_raises (h : heap) (self : ref) (o : obj)
    (digest : bytes) :
  h !! self = Some o ->
  length digest = 32%nat ->
  (_secret_exponent o = None ->
     Key.sign self digest h = (h, Raise NotPrivate)) /\
  (forall s r s',
     _secret_exponent o = Some s ->
     Generator.sign (_generator o) s (from_bytes_32 digest) = Ok (r, s') ->
     Key.sign self digest h = (h, Ok (Imports.sigencode_der r s'))) /\
  (forall s e,
     _secret_exponent o = Some s ->
     Generator.sign (_generator o) s (from_bytes_32 digest) = Raise e ->
     Key.sign self digest h = (h, Raise e)) /\
  (forall hi lo, from_bytes_32 (hi ++ [lo])
                 = 256 * from_bytes_32 hi + Z_of_byte lo).
Proof.
  intros Hself _. rewrite (sign_eq h self o Hself).
  split; [|split; [|split]].
  - intros ->. reflexivity.
  - intros s r s' -> ->. reflexivity.
  - intros s e -> ->. reflexivity.
  - intros hi lo. rewrite from_bytes_32_snoc. lia.
Qed.

(** C7: on a key without secret exponent [wif] returns [None] and raises
    nothing; on a private key, whose exponent fits 32 bytes, the blob
    handed to [wif_for_blob] of the network is the 32-byte big-endian
    encoding of the exponent, followed by the single byte [0x01] exactly
    when the style in force is compressed: the argument of the call when
    it is given, the default of the key otherwise. *)
Theorem wif_blob_format (h : heap) (self : ref) (o : obj)
    (is_compressed : option bool) :
  h !! self = Some o ->
  (_secret_exponent o = None -> Key.wif self is_compressed h = (h, Ok None))
  /\
  (forall s, _secret_exponent o = Some s -> 0 <= s < 2 ^ 256 ->
     exists blob32,
       length blob32 = 32%nat /\
       from_bytes_32 blob32 = s /\
       Key.wif self is_compressed h =
       (h, Ok (Some (Network.wif_for_blob (_network o)
                       (blob32 ++
                        (if style_of o is_compressed then [x01] else [])))))).
Proof.
  intros Hself. rewrite (wif_eq h self o Hself). split.
  - intros ->. reflexivity.
  - intros s -> Hs. destruct (to_bytes_32_ok s Hs) as (Hto & Hlen & Hfrom).
    exists (big_endian 32 s). rewrite Hto. cbn [result_bind].
    repeat split; try assumption.
    destruct (style_of o is_compressed); [reflexivity|].
    rewrite app_nil_r. reflexivity.
Qed.

(** C1, as the code has it: [verify] has no handler around
    [sigdecode_der].  On signature bytes that the codec cannot decode the
    exception of the codec leaves [verify]; on bytes that decode to
    [(r, s)] the result is the verdict of the generator for the public
    pair of the key, the digest read as a big-endian integer, and
    [(r, s)].  The heap is unchanged in both cases. *)
Theorem verify_decode_error_propagates (h : heap) (self : ref) (o : obj)
    (digest sig : bytes) :
  h !! self = Some o ->
  length digest = 32%nat ->
  (forall e, Imports.sigdecode_der sig = Raise e ->
     Key.verify self digest sig h = (h, Raise e)) /\
  (forall rs pp, Imports.sigdecode_der sig = Ok rs ->
     _public_pair o = Some pp ->
     Key.verify self digest sig h =
     (h, Ok (Generator.verify (_generator o) pp (from_bytes_32 digest) rs))).
Proof.
  intros Hself _. rewrite (verify_eq h self o Hself). split.
  - intros e ->. reflexivity.
  - intros rs pp -> ->. reflexivity.
Qed.

End Formats.

(** ** SEC bytes and back *)

Section SecRoundTrip.

Context {imports : Imports.t}.
Import Bytes32 Sec.

Lemma lawful_at_sound g s :
  lawful_at g s = true ->
  exists x y,
    Generator.rmul g s = (Some x, Some y) /\
    Generator.contains_point g x y = true /\
    0 <= x < 2 ^ 256 /\ 0 <= y < 2 ^ 256 /\
    Generator.y_for_x g x (Z.odd y) = Some y.
Proof.
  unfold lawful_at.
  destruct (Generator.rmul g s) as [[x|] [y|]]; try discriminate.
  destruct (Generator.y_for_x g x (Z.odd y)) as [y'|] eqn:Hy;
    [|rewrite andb_false_r; discriminate].
  rewrite !andb_true_iff, !Z.leb_le, !Z.ltb_lt, Z.eqb_eq.
  intros (((((Hc & ?) & ?) & ?) & ?) & ->).
  exists x, y. repeat split; assumption.
Qed.

(** A scalar range as a list, for checks that run over it. *)
Lemma lawful_by_check g (k : nat) :
  Generator.order g = Z.of_nat (S k) ->
  forallb (lawful_at g) (map Z.of_nat (seq 1 k)) = true ->
  lawful g.
Proof.
  intros Hord Hall s Hs. apply lawful_at_sound.
  rewrite forallb_forall in Hall. apply Hall.
  apply in_map_iff. exists (Z.to_nat s). split; [lia|].
  apply in_seq. lia.
Qed.

(** The decoder undoes the encoder on a point of the curve whose
    ordinate the root finder recovers. *)
Lemma sec_round_trip_point g x y compressed :
  Generator.contains_point g x y = true ->
  0 <= x < 2 ^ 256 -> 0 <= y < 2 ^ 256 ->
  Generator.y_for_x g x (Z.odd y) = Some y ->
  exists s,
    public_pair_to_sec (Some x, Some y) compressed = Ok s /\
    sec_to_public_pair s (Some g) = Ok (Some x, Some y) /\
    is_sec_compressed s = compressed.
Proof.
  intros Hc Hx Hy Hroot.
  destruct (to_bytes_32_ok x Hx) as (Hxto & Hxlen & Hxfrom).
  destruct (to_bytes_32_ok y Hy) as (Hyto & Hylen & Hyfrom).
  unfold public_pair_to_sec. rewrite Hxto. cbn [result_bind].
  destruct compressed.
  - eexists. split; [reflexivity|].
    unfold sec_to_public_pair, is_sec_compressed.
    rewrite Hxlen, Hxfrom. cbn [Nat.eqb].
    destruct (Z.odd y) eqn:Hodd; cbn [Byte.eqb orb];
      change (Byte.eqb x03 x04) with false;
      change (Byte.eqb x02 x04) with false;
      change (Byte.eqb x03 x02) with false;
      change (Byte.eqb x03 x03) with true;
      change (Byte.eqb x02 x02) with true;
      change (Byte.eqb x02 x03) with false;
      cbn [orb]; rewrite Hroot, Hc; split; reflexivity.
  - rewrite Hyto. cbn [result_bind]. eexists. split; [reflexivity|].
    unfold sec_to_public_pair, is_sec_compressed.
    change (Byte.eqb x04 x04) with true.
    change (Byte.eqb x04 x02) with false.
    change (Byte.eqb x04 x03) with false.
    rewrite length_app, Hxlen, Hylen.
    rewrite take_app_length', drop_app_length' by (symmetry; assumption).
    rewrite Hxfrom, Hyfrom, Hc. split; reflexivity.
Qed.

End SecRoundTrip.

Section SecRoundTripKey.

Context {imports : Imports.t}.
Import Bytes32 Sec.

Lemma lookup_last (h : heap) (o : obj) : (h ++ [o]) !! length h = Some o.
Proof. rewrite lookup_app_r, Nat.sub_diag by lia. reflexivity. Qed.

(** The round trip at one scalar, from what the generator does there. *)
Lemma sec_from_sec_round_trip_at class_ g s x y ic
    (is_compressed' : option bool) (h h2 : heap) :
  KeyClass._generator class_ = Some g ->
  1 <= s < Generator.order g ->
  Generator.rmul g s = (Some x, Some y) ->
  Generator.contains_point g x y = true ->
  0 <= x < 2 ^ 256 -> 0 <= y < 2 ^ 256 ->
  Generator.y_for_x g x (Z.odd y) = Some y ->
  exists secb,
    Key.new class_ (Some s) None ic h
    = (h ++ [fresh_key class_ (Some s) (Some x, Some y) ic], Ok (length h)) /\
    Key.sec (length h) is_compressed'
      (h ++ [fresh_key class_ (Some s) (Some x, Some y) ic])
    = (h ++ [fresh_key class_ (Some s) (Some x, Some y) ic], Ok (Some secb)) /\
    is_sec_compressed secb = (if is_compressed' is Some b then b else ic) /\
    Key.from_sec class_ secb h2
    = (h2 ++ [fresh_key class_ None (Some x, Some y)
                (if is_compressed' is Some b then b else ic)],
       Ok (length h2)).
Proof.
  intros Hgen Hs Hmul Hc Hx Hy Hroot.
  assert (Hg : Key.generator_of class_ = g)
    by (unfold Key.generator_of; rewrite Hgen; reflexivity).
  set (o := fresh_key class_ (Some s) (Some x, Some y) ic).
  change (if is_compressed' is Some b then b else ic)
    with (style_of o is_compressed').
  destruct (sec_round_trip_point g x y (style_of o is_compressed')
              Hc Hx Hy Hroot) as (secb & Henc & Hdec & Htag).
  exists secb. split; [|split; [|split]].
  - rewrite new_unfold, init_secret, Hg.
    apply range_check_passes in Hs. rewrite Hs, Hmul.
    unfold valid_point. rewrite Hc. reflexivity.
  - rewrite (sec_eq _ _ o (lookup_last h o)).
    unfold sec_of. cbn [_public_pair o fresh_key].
    rewrite Henc. reflexivity.
  - exact Htag.
  - unfold Key.from_sec, bind, lift. rewrite Hgen, Hdec, Htag.
    rewrite new_unfold, init_public, Hg.
    unfold valid_point. rewrite Hc. reflexivity.
Qed.

(** C2: on a class bound to a lawful generator, every secret exponent [s]
    with [1 <= s < order] makes a key; the bytes its [sec] method returns
    decode, through [from_sec] of the same class, to a key with the same
    public pair, whose compression flag is the style of the encoding:
    the flag of the first key when [sec] is called without argument. *)
Theorem sec_from_sec_round_trip class_ g s ic
    (is_compressed' : option bool) (h h2 : heap) :
  KeyClass._generator class_ = Some g ->
  lawful g ->
  1 <= s < Generator.order g ->
  exists o secb o2,
    Key.new class_ (Some s) None ic h = (h ++ [o], Ok (length h)) /\
    _secret_exponent o = Some s /\
    _is_compressed o = ic /\
    Key.sec (length h) is_compressed' (h ++ [o]) = (h ++ [o], Ok (Some secb)) /\
    Key.from_sec class_ secb h2 = (h2 ++ [o2], Ok (length h2)) /\
    _public_pair o2 = _public_pair o /\
    _is_compressed o2 = style_of o is_compressed' /\
    (is_compressed' = None -> _is_compressed o2 = _is_compressed o).
Proof.
  intros Hgen Hlaw Hs.
  destruct (Hlaw s Hs) as (x & y & Hmul & Hc & Hx & Hy & Hroot).
  destruct (sec_from_sec_round_trip_at class_ g s x y ic is_compressed' h h2
              Hgen Hs Hmul Hc Hx Hy Hroot)
    as (secb & Hnew & Hsec & _ & Hfrom).
  exists (fresh_key class_ (Some s) (Some x, Some y) ic), secb,
    (fresh_key class_ None (Some x, Some y)
       (if is_compressed' is Some b then b else ic)).
  split; [exact Hnew|]. split; [reflexivity|]. split; [reflexivity|].
  split; [exact Hsec|]. split; [exact Hfrom|].
  split; [reflexivity|]. split; [reflexivity|].
  intros ->. reflexivity.
Qed.

End SecRoundTripKey.

(** ** What the methods change in the heap *)

Section Frame.

Context {imports : Imports.t}.

Lemma same_core_refl o : same_core o o.
Proof. repeat split. Qed.

Lemma same_core_trans o1 o2 o3 :
  same_core o1 o2 -> same_core o2 o3 -> same_core o1 o3.
Proof.
  unfold same_core. intros (?&?&?&?&?&?) (?&?&?&?&?&?).
  repeat split; congruence.
Qed.

Lemma cache_kept_refl o : cache_kept o o.
Proof. intros c v Hv. exact Hv. Qed.

Lemma cache_kept_trans o1 o2 o3 :
  cache_kept o1 o2 -> cache_kept o2 o3 -> cache_kept o1 o3.
Proof. intros H12 H23 c v Hv. apply H23, H12, Hv. Qed.

Lemma extends_refl h : extends h h.
Proof.
  intros r o Hr. exists o.
  split; [exact Hr|]. split; [apply same_core_refl | apply cache_kept_refl].
Qed.

Lemma extends_trans h1 h2 h3 :
  extends h1 h2 -> extends h2 h3 -> extends h1 h3.
Proof.
  intros H12 H23 r o Hr.
  destruct (H12 r o Hr) as (o2 & Hr2 & Hc2 & Hk2).
  destruct (H23 r o2 Hr2) as (o3 & Hr3 & Hc3 & Hk3).
  exists o3. split; [exact Hr3|]. split.
  - eapply same_core_trans; eassumption.
  - eapply cache_kept_trans; eassumption.
Qed.

Lemma step_ok_refl h : step_ok h h.
Proof. split; [apply extends_refl | trivial]. Qed.

Lemma step_ok_trans h1 h2 h3 :
  step_ok h1 h2 -> step_ok h2 h3 -> step_ok h1 h3.
Proof.
  intros [E12 C12] [E23 C23]. split.
  - eapply extends_trans; eassumption.
  - intros Hc. apply C23, C12, Hc.
Qed.

(** A new object does not disturb the others. *)
Lemma step_ok_alloc h o : coherent o -> step_ok h (h ++ [o]).
Proof.
  intros Ho. split.
  - intros r o' Hr. exists o'. split.
    + rewrite lookup_app_l by (eapply lookup_lt_Some; eassumption).
      exact Hr.
    + split; [apply same_core_refl | apply cache_kept_refl].
  - intros Hh r o' Hr. apply lookup_snoc_Some in Hr.
    destruct Hr as [[_ Hr] | [_ <-]]; [eapply Hh; eassumption | exact Ho].
Qed.

Lemma same_core_fill c v o : same_core o (fill c v o).
Proof. destruct c; repeat split. Qed.

Lemma slot_fill_same c v o : slot c (fill c v o) = Some v.
Proof. destruct c; reflexivity. Qed.

Lemma slot_fill_other c v o : slot (negb c) (fill c v o) = slot (negb c) o.
Proof. destruct c; reflexivity. Qed.

(** The SEC bytes and the digest depend on the public pair alone. *)
Lemma sec_of_core o o' c : same_core o o' -> sec_of o' c = sec_of o c.
Proof. intros (_&_&Hpp&_). unfold sec_of. rewrite Hpp. reflexivity. Qed.

Lemma digest_of_core o o' c :
  same_core o o' -> digest_of o' c = digest_of o c.
Proof.
  intros Hc. unfold digest_of. rewrite (sec_of_core o o' c Hc). reflexivity.
Qed.

Lemma style_of_core o o' ic : same_core o o' -> style_of o' ic = style_of o ic.
Proof. intros (_&_&_&Hic&_). destruct ic; [reflexivity | exact Hic]. Qed.

Lemma coherent_fill c v o :
  coherent o -> digest_of o c = Ok v -> coherent (fill c v o).
Proof.
  intros Ho Hd c' v' Hv'.
  rewrite (digest_of_core o (fill c v o) c' (same_core_fill c v o)).
  destruct c, c'; cbn in Hv'; try (apply Ho; exact Hv'); congruence.
Qed.

(** Filling the empty slot of a style with the digest of that style. *)
Lemma step_ok_fill h self o c v :
  h !! self = Some o -> slot c o = None -> digest_of o c = Ok v ->
  step_ok h (<[self := fill c v o]> h).
Proof.
  intros Hself Hempty Hd.
  assert (Hlt : (self < length h)%nat) by (eapply lookup_lt_Some; eassumption).
  split.
  - intros r o0 Hr. destruct (decide (r = self)) as [->|Hne].
    + rewrite Hself in Hr. injection Hr as <-.
      exists (fill c v o). split; [apply list_lookup_insert_eq, Hlt|].
      split; [apply same_core_fill|].
      intros c' w Hw. destruct c, c'; cbn in *; congruence.
    + exists o0. rewrite list_lookup_insert_ne by congruence.
      split; [exact Hr|].
      split; [apply same_core_refl | apply cache_kept_refl].
  - intros Hh r o0. destruct (decide (r = self)) as [->|Hne].
    + rewrite list_lookup_insert_eq by exact Hlt. intros [= <-].
      apply coherent_fill; [eapply Hh; eassumption | exact Hd].
    + rewrite list_lookup_insert_ne by congruence. apply Hh.
Qed.

(** *** Rules *)

Lemma keeps_ret {A} (a : A) : keeps (ret a).
Proof. intros h h' r [= <- _]. apply step_ok_refl. Qed.

Lemma keeps_raise {A} e : keeps (@raise A e).
Proof. intros h h' r [= <- _]. apply step_ok_refl. Qed.

Lemma keeps_lift {A} (x : result A) : keeps (lift x).
Proof. intros h h' r [= <- _]. apply step_ok_refl. Qed.

Lemma keeps_deref self : keeps (deref self).
Proof.
  intros h h' r. unfold deref.
  destruct (h !! self); intros [= <- _]; apply step_ok_refl.
Qed.

Lemma keeps_bind {A B} (c : M A) (k : A -> M B) :
  keeps c -> (forall a, keeps (k a)) -> keeps (bind c k).
Proof.
  intros Hc Hk h h' r. unfold bind.
  destruct (c h) as [h1 [a|e]] eqn:Hrun.
  - intros Hka. eapply step_ok_trans; [eapply Hc | eapply Hk]; eassumption.
  - intros [= <- _]. eapply Hc; eassumption.
Qed.

(** [__init__] leaves both slots empty. *)
Lemma init_coherent class_ se pp ic o :
  Key.__init__ class_ se pp ic = Ok o -> coherent o.
Proof.
  intros Hinit c v.
  destruct se as [s|], pp as [pp|]; try discriminate.
  - rewrite init_secret in Hinit.
    destruct (_ || _); [discriminate|].
    destruct (valid_point _ _); [|discriminate].
    injection Hinit as <-. destruct c; discriminate.
  - rewrite init_public in Hinit.
    destruct (valid_point _ _); [|discriminate].
    injection Hinit as <-. destruct c; discriminate.
Qed.

Lemma keeps_new class_ se pp ic : keeps (Key.new class_ se pp ic).
Proof.
  intros h h' r. rewrite new_unfold.
  destruct (Key.__init__ class_ se pp ic) as [o|e] eqn:Hinit;
    intros [= <- _].
  - apply step_ok_alloc. eapply init_coherent; eassumption.
  - apply step_ok_refl.
Qed.

End Frame.

Section Hash160.

Context {imports : Imports.t}.

(** [hash160] in one equation: a filled slot is returned as it is; an
    empty slot is filled with the digest of the style and the digest is
    returned; an exception of the encoder leaves the slot empty. *)
Lemma hash160_eq (h : heap) (self : ref) (o : obj) ic :
  h !! self = Some o ->
  Key.hash160 self ic h =
  match slot (style_of o ic) o with
  | Some v => (h, Ok (Some v))
  | None =>
      match digest_of o (style_of o ic) with
      | Ok v => (<[self := fill (style_of o ic) v o]> h, Ok (Some v))
      | Raise e => (h, Raise e)
      end
  end.
Proof.
  intros Hself.
  assert (Hlt : (self < length h)%nat) by (eapply lookup_lt_Some; eassumption).
  unfold Key.hash160, bind. rewrite (or_default_eq h self o Hself).
  destruct (style_of o ic) eqn:Hst; rewrite (deref_eq h self o Hself);
    cbn [slot].
  - destruct (_hash160_compressed o) as [v|] eqn:Hslot.
    + unfold ret at 1. rewrite (deref_eq h self o Hself), Hslot. reflexivity.
    + rewrite (sec_eq h self o Hself (Some true)). cbn [style_of].
      unfold digest_of.
      destruct (sec_of o true) as [[blob|]|e]; try reflexivity.
      cbn [lift expect result_bind]. unfold update. rewrite Hself.
      unfold deref. rewrite list_lookup_insert_eq by exact Hlt.
      reflexivity.
  - destruct (_hash160_uncompressed o) as [v|] eqn:Hslot.
    + unfold ret at 1. rewrite (deref_eq h self o Hself), Hslot. reflexivity.
    + rewrite (sec_eq h self o Hself (Some false)). cbn [style_of].
      unfold digest_of.
      destruct (sec_of o false) as [[blob|]|e]; try reflexivity.
      cbn [lift expect result_bind]. unfold update. rewrite Hself.
      unfold deref. rewrite list_lookup_insert_eq by exact Hlt.
      reflexivity.
Qed.

(** On a dangling reference [hash160] raises and changes nothing. *)
Lemma hash160_dangling (h : heap) (self : ref) ic :
  h !! self = None -> fst (Key.hash160 self ic h) = h.
Proof.
  intros Hnone. unfold Key.hash160, bind.
  destruct ic as [[|]|]; cbn [Key.or_default ret];
    unfold Key.is_compressed, bind, deref; rewrite Hnone; reflexivity.
Qed.

Lemma keeps_hash160 self ic : keeps (Key.hash160 self ic).
Proof.
  intros h h' r Hrun.
  destruct (h !! self) as [o|] eqn:Hself.
  - rewrite (hash160_eq h self o ic Hself) in Hrun.
    destruct (slot (style_of o ic) o) eqn:Hslot.
    + injection Hrun as <- _. apply step_ok_refl.
    + destruct (digest_of o (style_of o ic)) eqn:Hd; injection Hrun as <- _.
      * eapply step_ok_fill; eassumption.
      * apply step_ok_refl.
  - pose proof (hash160_dangling h self ic Hself) as Hfst.
    rewrite Hrun in Hfst. cbn in Hfst. subst h'. apply step_ok_refl.
Qed.

(** A second call returns what the first returned and changes nothing. *)
Lemma hash160_twice (h h1 : heap) (self : ref) (o : obj) ic r :
  h !! self = Some o ->
  Key.hash160 self ic h = (h1, r) ->
  Key.hash160 self ic h1 = (h1, r).
Proof.
  intros Hself Hrun.
  assert (Hlt : (self < length h)%nat) by (eapply lookup_lt_Some; eassumption).
  pose proof Hrun as Hrun'.
  rewrite (hash160_eq h self o ic Hself) in Hrun.
  destruct (slot (style_of o ic) o) as [v|] eqn:Hslot.
  - injection Hrun as <- <-. exact Hrun'.
  - destruct (digest_of o (style_of o ic)) as [v|e] eqn:Hd;
      injection Hrun as <- <-; [|exact Hrun'].
    erewrite hash160_eq by (apply list_lookup_insert_eq; exact Hlt).
    rewrite (style_of_core o _ ic (same_core_fill _ v o)).
    rewrite slot_fill_same. reflexivity.
Qed.

End Hash160.

Create HintDb keeps.
#[export] Hint Resolve keeps_ret keeps_raise keeps_lift keeps_deref
  keeps_new keeps_hash160 : keeps.

Ltac keeps_step :=
  cbv zeta;
  match goal with
  | |- keeps _ => solve [auto with keeps]
  | |- keeps (bind _ _) => apply keeps_bind; [|intros]
  | |- keeps (match ?x with _ => _ end) => destruct x
  end.

Ltac keeps_method := intros; repeat keeps_step.

Section MethodsKeep.

Context {imports : Imports.t}.

Lemma keeps_secret_exponent self : keeps (Key.secret_exponent self).
Proof. unfold Key.secret_exponent. keeps_method. Qed.
Hint Resolve keeps_secret_exponent : keeps.

Lemma keeps_is_private self : keeps (Key.is_private self).
Proof. unfold Key.is_private. keeps_method. Qed.
Hint Resolve keeps_is_private : keeps.

Lemma keeps_is_compressed self : keeps (Key.is_compressed self).
Proof. unfold Key.is_compressed. keeps_method. Qed.
Hint Resolve keeps_is_compressed : keeps.

Lemma keeps_or_default self ic : keeps (Key.or_default self ic).
Proof. unfold Key.or_default. keeps_method. Qed.
Hint Resolve keeps_or_default : keeps.

Lemma keeps_public_pair self : keeps (Key.public_pair self).
Proof. unfold Key.public_pair. keeps_method. Qed.
Hint Resolve keeps_public_pair : keeps.

Lemma keeps_from_sec class_ s : keeps (Key.from_sec class_ s).
Proof. unfold Key.from_sec. keeps_method. Qed.
Hint Resolve keeps_from_sec : keeps.

Lemma keeps_wif self ic : keeps (Key.wif self ic).
Proof. unfold Key.wif. keeps_method. Qed.
Hint Resolve keeps_wif : keeps.

Lemma keeps_sec self ic : keeps (Key.sec self ic).
Proof. unfold Key.sec. keeps_method. Qed.
Hint Resolve keeps_sec : keeps.

Lemma keeps_sec_as_hex self ic : keeps (Key.sec_as_hex self ic).
Proof. unfold Key.sec_as_hex. keeps_method. Qed.
Hint Resolve keeps_sec_as_hex : keeps.

Lemma keeps_fingerprint self ic : keeps (Key.fingerprint self ic).
Proof. unfold Key.fingerprint. keeps_method. Qed.
Hint Resolve keeps_fingerprint : keeps.

Lemma keeps_address self ic : keeps (Key.address self ic).
Proof. unfold Key.address. keeps_method. Qed.
Hint Resolve keeps_address : keeps.

Lemma keeps_as_text self : keeps (Key.as_text self).
Proof. unfold Key.as_text. keeps_method. Qed.
Hint Resolve keeps_as_text : keeps.

Lemma keeps_public_copy self : keeps (Key.public_copy self).
Proof. unfold Key.public_copy. keeps_method. Qed.
Hint Resolve keeps_public_copy : keeps.

Lemma keeps_subkey_for_path self path : keeps (Key.subkey_for_path self path).
Proof. unfold Key.subkey_for_path. keeps_method. Qed.

Lemma keeps_subkey self path : keeps (Key.subkey self path).
Proof. unfold Key.subkey. keeps_method. Qed.

Lemma keeps_subkeys self path : keeps (Key.subkeys self path).
Proof. unfold Key.subkeys. keeps_method. Qed.

Lemma keeps_sign self digest : keeps (Key.sign self digest).
Proof. unfold Key.sign. keeps_method. Qed.

Lemma keeps_verify self digest sig : keeps (Key.verify self digest sig).
Proof. unfold Key.verify. keeps_method. Qed.

Lemma keeps_repr self : keeps (Key.__repr__ self).
Proof. unfold Key.__repr__. keeps_method. Qed.

Lemma keeps_effect {A} (c : M A) h : keeps c -> step_ok h (effect c h).
Proof.
  intros Hc. unfold effect. destruct (c h) as [h' r] eqn:Hrun.
  eapply Hc. eassumption.
Qed.

(** Every call of a client changes the heap in the allowed way. *)
Lemma run_call_ok c h : step_ok h (run_call c h).
Proof.
  destruct c; cbn [run_call]; apply keeps_effect;
    auto using keeps_subkey_for_path, keeps_subkey, keeps_subkeys,
      keeps_sign, keeps_verify, keeps_repr with keeps.
Qed.

Lemma run_ok calls h : step_ok h (run calls h).
Proof.
  revert h. induction calls as [|c calls IH]; intros h.
  - apply step_ok_refl.
  - cbn [run fold_left]. eapply step_ok_trans; [apply run_call_ok|].
    apply IH.
Qed.

Lemma run_app calls1 calls2 h :
  run (calls1 ++ calls2) h = run calls2 (run calls1 h).
Proof. unfold run. apply fold_left_app. Qed.

Lemma reachable_coherent h : reachable h -> heap_coherent h.
Proof.
  intros [calls ->]. apply (run_ok calls []).
  intros r o Hr. rewrite lookup_nil in Hr. discriminate.
Qed.

Lemma reachable_run calls h : reachable h -> reachable (run calls h).
Proof.
  intros [calls0 ->]. exists (calls0 ++ calls). symmetry. apply run_app.
Qed.

(** On a coherent heap the result of [hash160] is the digest, whatever
    the slots hold. *)
Lemma hash160_result h self o ic :
  heap_coherent h -> h !! self = Some o ->
  snd (Key.hash160 self ic h) = result_map Some (digest_of o (style_of o ic)).
Proof.
  intros Hh Hself. rewrite (hash160_eq h self o ic Hself).
  destruct (slot (style_of o ic) o) as [v|] eqn:Hslot.
  - rewrite (Hh self o Hself _ v Hslot). reflexivity.
  - destruct (digest_of o (style_of o ic)); reflexivity.
Qed.

End MethodsKeep.

Section Cache.

Context {imports : Imports.t}.

(** The object behind [self] once [hash160] has run. *)
Lemma hash160_object (h : heap) (self : ref) (o : obj) ic :
  h !! self = Some o ->
  exists o1,
    effect (Key.hash160 self ic) h !! self = Some o1 /\
    same_core o o1 /\
    slot (negb (style_of o ic)) o1 = slot (negb (style_of o ic)) o /\
    (forall v, digest_of o (style_of o ic) = Ok v ->
               slot (style_of o ic) o = None ->
               slot (style_of o ic) o1 = Some v) /\
    (forall v, slot (style_of o ic) o = Some v ->
               slot (style_of o ic) o1 = Some v).
Proof.
  intros Hself.
  assert (Hlt : (self < length h)%nat) by (eapply lookup_lt_Some; eassumption).
  unfold effect. rewrite (hash160_eq h self o ic Hself).
  destruct (slot (style_of o ic) o) as [v|] eqn:Hslot.
  - exists o. cbn [fst]. repeat split; try assumption; try discriminate.
    intros v' [= <-]. exact Hslot.
  - destruct (digest_of o (style_of o ic)) as [v|e] eqn:Hd; cbn [fst].
    + exists (fill (style_of o ic) v o).
      split; [apply list_lookup_insert_eq, Hlt|].
      split; [apply same_core_fill|].
      split; [apply slot_fill_other|].
      split; [|discriminate].
      intros v' [= <-] _. apply slot_fill_same.
    + exists o. repeat split; try assumption; discriminate.
Qed.

(** C8: on every heap a client can build, and for a call at either style,
    [hash160] returns the short hash of the bytes that [sec] returns at
    that style (and raises what [sec] raises); the value sits in the slot
    of the style afterwards, the slot of the other style is as before and
    so is every other attribute; a second call returns the same bytes and
    changes nothing; and after any further calls of the client the method
    still returns the same bytes: the cache cannot be observed. *)
Theorem hash160_cached_digest (h : heap) (self : ref) (o : obj)
    (is_compressed : option bool) :
  reachable h ->
  h !! self = Some o ->
  let style := style_of o is_compressed in
  exists h1 o1,
    Key.sec self is_compressed h = (h, sec_of o style) /\
    digest_of o style
    = (try* s := sec_of o style in
       try* blob := expect s in Ok (Imports.hash160 blob)) /\
    Key.hash160 self is_compressed h
    = (h1, result_map Some (digest_of o style)) /\
    h1 !! self = Some o1 /\
    same_core o o1 /\
    slot (negb style) o1 = slot (negb style) o /\
    (forall v, digest_of o style = Ok v -> slot style o1 = Some v) /\
    Key.hash160 self is_compressed h1
    = (h1, result_map Some (digest_of o style)) /\
    (forall calls,
        snd (Key.hash160 self is_compressed (run calls h1))
        = result_map Some (digest_of o style)).
Proof.
  intros Hreach Hself style.
  pose proof (reachable_coherent h Hreach) as Hcoh.
  destruct (hash160_object h self o is_compressed Hself)
    as (o1 & Hself1 & Hcore & Hother & Hfilled & Hkept).
  fold style in Hother, Hfilled, Hkept.
  assert (Hrun : Key.hash160 self is_compressed h
                 = (effect (Key.hash160 self is_compressed) h,
                    result_map Some (digest_of o style))).
  { unfold effect, style.
    rewrite <- (hash160_result h self o is_compressed Hcoh Hself).
    destruct (Key.hash160 self is_compressed h). reflexivity. }
  exists (effect (Key.hash160 self is_compressed) h), o1.
  split; [apply sec_eq, Hself|]. split; [reflexivity|].
  split; [exact Hrun|]. split; [exact Hself1|]. split; [exact Hcore|].
  split; [exact Hother|]. split; [|split].
  - intros v Hd. destruct (slot style o) as [v'|] eqn:Hslot.
    + rewrite (Hkept v' eq_refl). f_equal.
      pose proof (Hcoh self o Hself style v' Hslot) as Hd'. congruence.
    + apply Hfilled; [exact Hd | reflexivity].
  - apply (hash160_twice h _ self o); assumption.
  - intros calls.
    assert (Hreach1 : reachable (run calls
              (effect (Key.hash160 self is_compressed) h))).
    { apply reachable_run.
      change (reachable (run [call_hash160 self is_compressed] h)).
      apply reachable_run, Hreach. }
    destruct (run_ok calls (effect (Key.hash160 self is_compressed) h))
      as [Hext _].
    destruct (Hext self o1 Hself1) as (o2 & Hself2 & Hcore2 & _).
    rewrite (hash160_result _ self o2 is_compressed
               (reachable_coherent _ Hreach1) Hself2).
    pose proof (same_core_trans _ _ _ Hcore Hcore2) as Hcore02.
    rewrite (style_of_core o o2 _ Hcore02).
    rewrite (digest_of_core o o2 _ Hcore02). reflexivity.
Qed.

(** C9: through any sequence of calls of a client (constructor calls and
    method calls on any key, with or without compression argument) a key
    stays at its reference and keeps its secret exponent, its public pair
    and its compression default, and also its class, generator and
    network; the cache slots are all that changes, a filled slot keeps its
    bytes, on a coherent heap a slot that gets filled holds the digest of
    its style, and [hash160] run twice gives the same result and the same
    heap as run once. *)
Theorem calls_keep_key_attributes (h : heap) (self : ref) (o : obj)
    (calls : list call) :
  h !! self = Some o ->
  exists o',
    run calls h !! self = Some o' /\
    _secret_exponent o' = _secret_exponent o /\
    _public_pair o' = _public_pair o /\
    _is_compressed o' = _is_compressed o /\
    same_core o o' /\
    cache_kept o o' /\
    (heap_coherent h -> coherent o') /\
    (forall is_compressed h1 r,
        Key.hash160 self is_compressed h = (h1, r) ->
        Key.hash160 self is_compressed h1 = (h1, r)).
Proof.
  intros Hself. destruct (run_ok calls h) as [Hext Hcoh].
  destruct (Hext self o Hself) as (o' & Hself' & Hcore & Hkept).
  exists o'. split; [exact Hself'|].
  pose proof Hcore as (_ & Hse & Hpp & Hic & _).
  split; [exact Hse|]. split; [exact Hpp|]. split; [exact Hic|].
  split; [exact Hcore|]. split; [exact Hkept|]. split.
  - intros Hh. eapply Hcoh; eassumption.
  - intros ic h1 r. apply (hash160_twice h h1 self o ic r Hself).
Qed.

End Cache.

(** * The statements on the sample collaborators *)

Section OnSamples.

Import Samples Bytes32.

Lemma tiny_lawful : lawful tiny_generator.
Proof.
  apply (lawful_by_check tiny_generator 30); [reflexivity|].
  vm_compute. reflexivity.
Qed.

Lemma heap1_private : heap1 !! 0%nat = Some private_key.
Proof. reflexivity. Qed.

Lemma heap1_public : heap1 !! 1%nat = Some public_key.
Proof. reflexivity. Qed.

Lemma heap1_reachable : reachable (imports := imports) heap1.
Proof. exists program1. reflexivity. Qed.

(** On secp256k1 the secret exponent 1 gives the base point; its
    compressed encoding starts with the tag [0x02] and decodes to the base
    point again. *)
Example secp256k1_secret_one :
  exists secb,
    Key.new (imports := imports) Secp256k1Key (Some 1) None true []
    = ([fresh_key (imports := imports) Secp256k1Key (Some 1)
          (base_point secp256k1) true], Ok 0%nat) /\
    Key.sec 0%nat None
      [fresh_key (imports := imports) Secp256k1Key (Some 1)
         (base_point secp256k1) true]
    = ([fresh_key (imports := imports) Secp256k1Key (Some 1)
          (base_point secp256k1) true], Ok (Some secb)) /\
    hd x00 secb = x02 /\
    Key.from_sec (imports := imports) Secp256k1Key secb []
    = ([fresh_key (imports := imports) Secp256k1Key None
          (base_point secp256k1) true], Ok 0%nat).
Proof.
  assert (Hs : 1 <= 1 < Generator.order (generator secp256k1))
    by (vm_compute; split; [discriminate | reflexivity]).
  assert (Hc : Generator.contains_point (generator secp256k1)
                 (gx secp256k1) (gy secp256k1) = true)
    by (vm_compute; reflexivity).
  assert (Hx : 0 <= gx secp256k1 < 2 ^ 256)
    by (vm_compute; split; [discriminate | reflexivity]).
  assert (Hy : 0 <= gy secp256k1 < 2 ^ 256)
    by (vm_compute; split; [discriminate | reflexivity]).
  assert (Hroot : Generator.y_for_x (generator secp256k1) (gx secp256k1)
                    (Z.odd (gy secp256k1)) = Some (gy secp256k1))
    by (vm_compute; reflexivity).
  destruct (sec_from_sec_round_trip_at (imports := imports) Secp256k1Key
              (generator secp256k1) 1 (gx secp256k1) (gy secp256k1)
              true None [] [] eq_refl Hs eq_refl Hc Hx Hy Hroot)
    as (secb & Hnew & Hsec & _ & Hfrom).
  exists secb. split; [exact Hnew|]. split; [exact Hsec|].
  split; [|exact Hfrom].
  revert Hsec. rewrite (sec_eq _ _ _ (lookup_last [] _)).
  unfold sec_of, Sec.public_pair_to_sec.
  cbn [_public_pair fresh_key base_point].
  rewrite (proj1 (to_bytes_32_ok _ Hx)). cbn [result_map result_bind].
  replace (Z.odd (gy secp256k1)) with false by (vm_compute; reflexivity).
  cbn [style_of fresh_key _is_compressed result_map result_bind].
  intros Heq. injection Heq as <-. reflexivity.
Qed.

(** C1 does not hold as "returns false, never raises": the sample codec
    cannot decode the empty signature, and [verify] on a 32-byte digest does
    not return [False]: the [CodecError] of the codec leaves the method. *)
Lemma verify_undecodable_signature_raises :
  length digest1 = 32%nat /\
  Imports.sigdecode_der (t := imports) [] = Raise (CodecError 0) /\
  Key.verify (imports := imports) 0%nat digest1 [] heap1
  = (heap1, Raise (CodecError 0)) /\
  snd (Key.verify (imports := imports) 0%nat digest1 [] heap1) <> Ok false.
Proof.
  split; [reflexivity|]. split; [reflexivity|].
  assert (Hrun : Key.verify (imports := imports) 0%nat digest1 [] heap1
                 = (heap1, Raise (CodecError 0))) by reflexivity.
  split; [exact Hrun|]. rewrite Hrun. discriminate.
Qed.

Lemma verify_decode_error_propagates_witness :
  (heap1 !! 0%nat = Some private_key /\ length digest1 = 32%nat) /\
  Key.verify (imports := imports) 0%nat digest1 [x30] heap1
  = (heap1, Raise (CodecError 1)).
Proof.
  split; [split; reflexivity|].
  destruct (verify_decode_error_propagates (imports := imports)
              heap1 0%nat private_key digest1 [x30]
              ltac:(reflexivity) ltac:(reflexivity)) as [Hraise _].
  apply Hraise. reflexivity.
Defined.

Lemma sec_from_sec_round_trip_witness :
  (KeyClass._generator TinyKey = Some tiny_generator /\
   lawful tiny_generator /\
   1 <= 5 < Generator.order tiny_generator) /\
  exists o secb o2,
    Key.new (imports := imports) TinyKey (Some 5) None true []
    = ([] ++ [o], Ok (length (@nil obj))) /\
    _secret_exponent o = Some 5 /\
    _is_compressed o = true /\
    Key.sec (length (@nil obj)) None ([] ++ [o]) = ([] ++ [o], Ok (Some secb)) /\
    Key.from_sec (imports := imports) TinyKey secb heap1
    = (heap1 ++ [o2], Ok (length heap1)) /\
    _public_pair o2 = _public_pair o /\
    _is_compressed o2 = style_of o None /\
    (@None bool = None -> _is_compressed o2 = _is_compressed o).
Proof.
  assert (Hgen : KeyClass._generator TinyKey = Some tiny_generator)
    by reflexivity.
  assert (Hs : 1 <= 5 < Generator.order tiny_generator)
    by (simpl; lia).
  split; [split; [exact Hgen | split; [exact tiny_lawful | exact Hs]]|].
  exact (sec_from_sec_round_trip (imports := imports) TinyKey tiny_generator
           5 true None [] heap1 Hgen tiny_lawful Hs).
Defined.

Lemma new_secret_exponent_range_witness :
  ((0 < 1 \/ Generator.order tiny_generator <= 0) /\
   1 <= 5 < Generator.order tiny_generator) /\
  Key.new (imports := imports) TinyKey (Some 0) None true heap1
  = (heap1, Raise InvalidSecretExponentError) /\
  snd (Key.new (imports := imports) TinyKey (Some 5) None true heap1)
  <> Raise InvalidSecretExponentError.
Proof.
  assert (H0 : 0 < 1 \/ Generator.order tiny_generator <= 0)
    by (left; lia).
  assert (H5 : 1 <= 5 < Generator.order tiny_generator)
    by (simpl; lia).
  split; [split; assumption|]. split.
  - apply (new_secret_exponent_range (imports := imports)
             TinyKey 0 true heap1), H0.
  - apply (new_secret_exponent_range (imports := imports)
             TinyKey 5 true heap1), H5.
Defined.

Lemma new_public_pair_checked_witness :
  (valid_point tiny_generator (Some 7, Some 7) = true /\
   valid_point tiny_generator (Some 7, Some 8) = false) /\
  Key.new (imports := imports) TinyKey None (Some (Some 7, Some 7)) false []
  = ([] ++ [public_key], Ok 0%nat) /\
  Key.new (imports := imports) TinyKey None (Some (Some 7, Some 8)) false []
  = ([], Raise InvalidPublicPairError).
Proof.
  assert (Hin : valid_point tiny_generator (Some 7, Some 7) = true)
    by reflexivity.
  assert (Hout : valid_point tiny_generator (Some 7, Some 8) = false)
    by reflexivity.
  split; [split; assumption|].
  destruct (new_public_pair_checked (imports := imports) TinyKey false [])
    as (_ & Hsupplied & _).
  split.
  - apply (Hsupplied (Some 7, Some 7)), Hin.
  - apply (Hsupplied (Some 7, Some 8)), Hout.
Defined.

(** C6 does not hold as "for every digest, returns the encoding": the
    sample generator, like the curve generator of the library, refuses the
    digest that reads as 0, and [sign] of a private key on the 32 zero
    bytes does not return a signature: the [ValueError] of the generator
    leaves the method. *)
Lemma sign_zero_digest_raises :
  heap1 !! 0%nat = Some private_key /\
  _secret_exponent private_key = Some 5 /\
  length digest0 = 32%nat /\
  from_bytes_32 digest0 = 0 /\
  Key.sign (imports := imports) 0%nat digest0 heap1
  = (heap1, Raise (ValueError EmptyString)) /\
  (forall sig,
      snd (Key.sign (imports := imports) 0%nat digest0 heap1) <> Ok sig).
Proof.
  assert (Hrun : Key.sign (imports := imports) 0%nat digest0 heap1
                 = (heap1, Raise (ValueError EmptyString))) by reflexivity.
  split; [reflexivity|]. split; [reflexivity|]. split; [reflexivity|].
  split; [reflexivity|]. split; [exact Hrun|].
  intros sig. rewrite Hrun. discriminate.
Qed.

Lemma sign_private_or_raises_witness :
  (heap1 !! 0%nat = Some private_key /\ length digest1 = 32%nat /\
   _secret_exponent private_key = Some 5 /\
   Generator.sign (_generator private_key) 5 (from_bytes_32 digest1)
   = Ok (13, 18) /\
   Generator.sign (_generator private_key) 5 (from_bytes_32 digest0)
   = Raise (ValueError EmptyString)) /\
  Key.sign (imports := imports) 0%nat digest1 heap1
  = (heap1, Ok (encode_rs 13 18)) /\
  Key.sign (imports := imports) 0%nat digest0 heap1
  = (heap1, Raise (ValueError EmptyString)).
Proof.
  assert (Hok : Generator.sign (_generator private_key) 5
                  (from_bytes_32 digest1) = Ok (13, 18))
    by (vm_compute; reflexivity).
  assert (Hraise : Generator.sign (_generator private_key) 5
                     (from_bytes_32 digest0) = Raise (ValueError EmptyString))
    by (vm_compute; reflexivity).
  split.
  { split; [reflexivity|]. split; [reflexivity|]. split; [reflexivity|].
    split; [exact Hok | exact Hraise]. }
  split.
  - destruct (sign_private_or_raises (imports := imports)
                heap1 0%nat private_key digest1
                ltac:(reflexivity) ltac:(reflexivity)) as (_ & Hsign & _).
    exact (Hsign 5 13 18 eq_refl Hok).
  - destruct (sign_private_or_raises (imports := imports)
                heap1 0%nat private_key digest0
                ltac:(reflexivity) ltac:(reflexivity)) as (_ & _ & Hsign & _).
    exact (Hsign 5 (ValueError EmptyString) eq_refl Hraise).
Defined.

Lemma wif_blob_format_witness :
  (heap1 !! 0%nat = Some private_key /\
   _secret_exponent private_key = Some 5 /\ 0 <= 5 < 2 ^ 256) /\
  exists blob32,
    length blob32 = 32%nat /\
    from_bytes_32 blob32 = 5 /\
    Key.wif 0%nat None heap1
    = (heap1, Ok (Some (Network.wif_for_blob network (blob32 ++ [x01])))).
Proof.
  assert (H5 : 0 <= 5 < 2 ^ 256) by lia.
  split; [repeat split; try reflexivity; apply H5|].
  destruct (wif_blob_format heap1 0%nat private_key None
              ltac:(reflexivity)) as [_ Hwif].
  exact (Hwif 5 eq_refl H5).
Defined.

Lemma hash160_cached_digest_witness :
  (reachable (imports := imports) heap1 /\
   heap1 !! 0%nat = Some private_key) /\
  exists h1,
    Key.hash160 (imports := imports) 0%nat None heap1
    = (h1, Ok (Some (fold_hash (x02 :: big_endian 32 12)))) /\
    Key.hash160 (imports := imports) 0%nat None h1
    = (h1, Ok (Some (fold_hash (x02 :: big_endian 32 12)))).
Proof.
  split; [split; [exact heap1_reachable | reflexivity]|].
  destruct (hash160_cached_digest (imports := imports)
              heap1 0%nat private_key None heap1_reachable
              ltac:(reflexivity))
    as (h1 & o1 & _ & _ & Hrun & _ & _ & _ & _ & Hagain & _).
  exists h1. split; [exact Hrun | exact Hagain].
Defined.

Lemma calls_keep_key_attributes_witness :
  heap1 !! 0%nat = Some private_key /\
  exists o',
    run (imports := imports)
      [call_hash160 0%nat None; call_repr 0%nat; call_sign 1%nat digest1;
       call_hash160 0%nat (Some false)] heap1 !! 0%nat = Some o' /\
    _secret_exponent o' = Some 5 /\
    _public_pair o' = Some (Some 12, Some 12) /\
    _is_compressed o' = true.
Proof.
  split; [reflexivity|].
  destruct (calls_keep_key_attributes (imports := imports)
              heap1 0%nat private_key
              [call_hash160 0%nat None; call_repr 0%nat;
               call_sign 1%nat digest1; call_hash160 0%nat (Some false)]
              ltac:(reflexivity))
    as (o' & Hat & Hse & Hpp & Hic & _).
  exists o'. split; [exact Hat|]. split; [exact Hse|].
  split; [exact Hpp | exact Hic].
Defined.

End OnSamples.


(** * Further properties of the class *)

(** ** Properties of the immutable attributes hold for life *)

Section ObjectInvariant.

Context {imports : Imports.t}.

Variable P : obj -> Prop.
Hypothesis P_core : forall o o', P o -> same_core o o' -> P o'.
Hypothesis P_init :
  forall class_ se pp ic o, Key.__init__ class_ se pp ic = Ok o -> P o.

Lemma maintains_ret {A} (a : A) : maintains P (ret a).
Proof. intros h h' r Hh [= <- _]. exact Hh. Qed.

Lemma maintains_raise {A} e : maintains P (@raise A e).
Proof. intros h h' r Hh [= <- _]. exact Hh. Qed.

Lemma maintains_lift {A} (x : result A) : maintains P (lift x).
Proof. intros h h' r Hh [= <- _]. exact Hh. Qed.

Lemma maintains_deref self : maintains P (deref self).
Proof.
  intros h h' r Hh. unfold deref.
  destruct (h !! self); intros [= <- _]; exact Hh.
Qed.

Lemma maintains_bind {A B} (c : M A) (k : A -> M B) :
  maintains P c -> (forall a, maintains P (k a)) -> maintains P (bind c k).
Proof using Type.
  intros Hc Hk h h' r Hh. unfold bind.
  destruct (c h) as [h1 [a|e]] eqn:Hrun.
  - intros Hka. eapply Hk; [|eassumption]. eapply Hc; eassumption.
  - intros [= <- _]. eapply Hc; eassumption.
Qed.

Lemma maintains_new class_ se pp ic : maintains P (Key.new class_ se pp ic).
Proof using P_init.
  intros h h' r Hh. rewrite new_unfold.
  destruct (Key.__init__ class_ se pp ic) as [o|e] eqn:Hinit;
    intros [= <- _]; [|exact Hh].
  intros r' o' Hr'. apply lookup_snoc_Some in Hr'.
  destruct Hr' as [[_ Hr'] | [_ <-]].
  - eapply Hh; eassumption.
  - eapply P_init; eassumption.
Qed.

Lemma maintains_hash160 self ic : maintains P (Key.hash160 self ic).
Proof using P_core.
  intros h h' r Hh Hrun.
  destruct (keeps_hash160 self ic h h' r Hrun) as [Hext _].
  intros r' o' Hr'.
  destruct (h !! r') as [o0|] eqn:Hr0.
  - destruct (Hext r' o0 Hr0) as (o1 & Hr1 & Hcore & _).
    rewrite Hr' in Hr1. injection Hr1 as <-.
    eapply P_core; [eapply Hh; eassumption | exact Hcore].
  - exfalso.
    destruct (h !! self) as [o|] eqn:Hself.
    + rewrite (hash160_eq h self o ic Hself) in Hrun.
      assert (Hlen : length h' = length h).
      { destruct (slot _ o); [injection Hrun as <- _; reflexivity|].
        destruct (digest_of o _); injection Hrun as <- _;
          [apply length_insert | reflexivity]. }
      apply lookup_ge_None in Hr0. apply lookup_lt_Some in Hr'. lia.
    + pose proof (hash160_dangling h self ic Hself) as Hfst.
      rewrite Hrun in Hfst. cbn in Hfst. subst h'. congruence.
Qed.

Create HintDb maintains.
#[local] Hint Resolve maintains_ret maintains_raise maintains_lift
  maintains_deref maintains_new maintains_hash160 : maintains.

Ltac maintains_step :=
  cbv zeta;
  match goal with
  | |- maintains _ _ => solve [auto with maintains]
  | |- maintains _ (bind _ _) => apply maintains_bind; [|intros]
  | |- maintains _ (match ?x with _ => _ end) => destruct x
  end.

Ltac maintains_method := intros; repeat maintains_step.

Lemma maintains_secret_exponent self : maintains P (Key.secret_exponent self).
Proof using Type. unfold Key.secret_exponent. maintains_method. Qed.
#[local] Hint Resolve maintains_secret_exponent : maintains.

Lemma maintains_is_private self : maintains P (Key.is_private self).
Proof using Type. unfold Key.is_private. maintains_method. Qed.
#[local] Hint Resolve maintains_is_private : maintains.

Lemma maintains_is_compressed self : maintains P (Key.is_compressed self).
Proof using Type. unfold Key.is_compressed. maintains_method. Qed.
#[local] Hint Resolve maintains_is_compressed : maintains.

Lemma maintains_or_default self ic : maintains P (Key.or_default self ic).
Proof using Type. unfold Key.or_default. maintains_method. Qed.
#[local] Hint Resolve maintains_or_default : maintains.

Lemma maintains_public_pair self : maintains P (Key.public_pair self).
Proof using Type. unfold Key.public_pair. maintains_method. Qed.
#[local] Hint Resolve maintains_public_pair : maintains.

Lemma maintains_from_sec class_ s : maintains P (Key.from_sec class_ s).
Proof using P_init. unfold Key.from_sec. maintains_method. Qed.
#[local] Hint Resolve maintains_from_sec : maintains.

Lemma maintains_wif self ic : maintains P (Key.wif self ic).
Proof using Type. unfold Key.wif. maintains_method. Qed.
#[local] Hint Resolve maintains_wif : maintains.

Lemma maintains_sec self ic : maintains P (Key.sec self ic).
Proof using Type. unfold Key.sec. maintains_method. Qed.
#[local] Hint Resolve maintains_sec : maintains.

Lemma maintains_sec_as_hex self ic : maintains P (Key.sec_as_hex self ic).
Proof using Type. unfold Key.sec_as_hex. maintains_method. Qed.
#[local] Hint Resolve maintains_sec_as_hex : maintains.

Lemma maintains_fingerprint self ic : maintains P (Key.fingerprint self ic).
Proof using P_core. unfold Key.fingerprint. maintains_method. Qed.
#[local] Hint Resolve maintains_fingerprint : maintains.

Lemma maintains_address self ic : maintains P (Key.address self ic).
Proof using P_core. unfold Key.address. maintains_method. Qed.
#[local] Hint Resolve maintains_address : maintains.

Lemma maintains_as_text self : maintains P (Key.as_text self).
Proof using P_core. unfold Key.as_text. maintains_method. Qed.
#[local] Hint Resolve maintains_as_text : maintains.

Lemma maintains_public_copy self : maintains P (Key.public_copy self).
Proof using P_init. unfold Key.public_copy. maintains_method. Qed.
#[local] Hint Resolve maintains_public_copy : maintains.

Lemma maintains_sign self digest : maintains P (Key.sign self digest).
Proof using Type. unfold Key.sign. maintains_method. Qed.

Lemma maintains_verify self digest sig :
  maintains P (Key.verify self digest sig).
Proof using Type. unfold Key.verify. maintains_method. Qed.

Lemma maintains_repr self : maintains P (Key.__repr__ self).
Proof using P_core P_init. unfold Key.__repr__. maintains_method. Qed.

Lemma maintains_effect {A} (c : M A) h :
  maintains P c -> heap_all P h -> heap_all P (effect c h).
Proof using Type.
  intros Hc Hh. unfold effect. destruct (c h) as [h' r] eqn:Hrun.
  eapply Hc; eassumption.
Qed.

Lemma run_call_maintains c h : heap_all P h -> heap_all P (run_call c h).
Proof using P_core P_init.
  destruct c; cbn [run_call]; apply maintains_effect;
    auto using maintains_sign, maintains_verify, maintains_repr
      with maintains;
    unfold Key.subkey_for_path, Key.subkey, Key.subkeys;
    auto with maintains.
Qed.

(** A property that [__init__] establishes and that reads the immutable
    attributes alone holds of every object a client ever sees. *)
Lemma reachable_all h : reachable h -> heap_all P h.
Proof using P_core P_init.
  intros [calls ->].
  assert (Hgen : forall h0, heap_all P h0 -> heap_all P (run calls h0)).
  { induction calls as [|c calls IH]; intros h0 Hh0; [exact Hh0|].
    cbn [run fold_left]. apply IH, run_call_maintains, Hh0. }
  apply Hgen. intros r o Hr. rewrite lookup_nil in Hr. discriminate.
Qed.

End ObjectInvariant.

(** ** The checks of the constructor hold for life *)

Section ValidKeys.

Context {imports : Imports.t}.

Lemma valid_key_core o o' : valid_key o -> same_core o o' -> valid_key o'.
Proof.
  intros (Hg & Hn & pp & Hpp & Hv & Hs) (Hcl & Hse & Hpp' & _ & Hg' & Hn').
  unfold valid_key. rewrite Hcl, Hse, Hpp', Hg', Hn'.
  split; [exact Hg|]. split; [exact Hn|]. exists pp. auto.
Qed.

Lemma valid_key_init class_ se pp ic o :
  Key.__init__ class_ se pp ic = Ok o -> valid_key o.
Proof.
  destruct se as [s|], pp as [pp|]; try discriminate.
  - rewrite init_secret.
    destruct ((s <? 1) || (s >=? _)) eqn:Hrange; [discriminate|].
    destruct (valid_point _ _) eqn:Hv; [|discriminate].
    intros [= <-]. apply range_check_passes in Hrange.
    split; [reflexivity|]. split; [reflexivity|].
    eexists. split; [reflexivity|]. split; [exact Hv|].
    intros s' [= <-]. split; [exact Hrange | reflexivity].
  - rewrite init_public.
    destruct (valid_point _ _) eqn:Hv; [|discriminate].
    intros [= <-].
    split; [reflexivity|]. split; [reflexivity|].
    eexists. split; [reflexivity|]. split; [exact Hv|].
    intros s' [=].
Qed.

Lemma reachable_valid h : reachable h -> heap_all valid_key h.
Proof. apply reachable_all; [exact valid_key_core | exact valid_key_init]. Qed.

(** X1: whatever calls a client has made, every key of the heap still
    passes the checks of [__init__]: its generator and network are the ones
    its class resolves to, its public pair is a finite point that the
    generator contains, and a secret exponent lies in [1, order) and has the
    public pair for its multiple of the generator. *)
Theorem reachable_keys_valid (h : heap) (r : ref) (o : obj) :
  reachable h ->
  h !! r = Some o ->
  _generator o = Key.generator_of (__class__ o) /\
  _network o = Key.network_of (__class__ o) /\
  exists x y,
    _public_pair o = Some (Some x, Some y) /\
    Generator.contains_point (_generator o) x y = true /\
    forall s, _secret_exponent o = Some s ->
      1 <= s < Generator.order (_generator o) /\
      Generator.rmul (_generator o) s = (Some x, Some y).
Proof.
  intros Hreach Hr.
  destruct (reachable_valid h Hreach r o Hr) as (Hg & Hn & pp & Hpp & Hv & Hs).
  split; [exact Hg|]. split; [exact Hn|].
  destruct pp as [[x|] [y|]]; try discriminate.
  exists x, y. split; [exact Hpp|]. split; [exact Hv|].
  intros s Hse. destruct (Hs s Hse) as [Hrange Hmul].
  split; [exact Hrange | symmetry; exact Hmul].
Qed.

End ValidKeys.

(** ** Methods that change nothing *)

Section Silent.

Context {imports : Imports.t}.

Lemma silent_ret {A} (a : A) : silent (ret a).
Proof. intros h. reflexivity. Qed.

Lemma silent_raise {A} e : silent (@raise A e).
Proof. intros h. reflexivity. Qed.

Lemma silent_lift {A} (x : result A) : silent (lift x).
Proof. intros h. reflexivity. Qed.

Lemma silent_deref self : silent (deref self).
Proof. intros h. unfold deref. destruct (h !! self); reflexivity. Qed.

Lemma silent_bind {A B} (c : M A) (k : A -> M B) :
  silent c -> (forall a, silent (k a)) -> silent (bind c k).
Proof.
  intros Hc Hk h. unfold bind. specialize (Hc h).
  destruct (c h) as [h1 [a|e]]; cbn in Hc; subst h1; [apply Hk | reflexivity].
Qed.

Create HintDb silent.
#[local] Hint Resolve silent_ret silent_raise silent_lift silent_deref
  : silent.

Ltac silent_step :=
  cbv zeta;
  match goal with
  | |- silent _ => solve [auto with silent]
  | |- silent (bind _ _) => apply silent_bind; [|intros]
  | |- silent (match ?x with _ => _ end) => destruct x
  end.

Ltac silent_method := intros; repeat silent_step.

Lemma silent_secret_exponent self : silent (Key.secret_exponent self).
Proof. unfold Key.secret_exponent. silent_method. Qed.
#[local] Hint Resolve silent_secret_exponent : silent.

Lemma silent_is_private self : silent (Key.is_private self).
Proof. unfold Key.is_private. silent_method. Qed.
#[local] Hint Resolve silent_is_private : silent.

Lemma silent_is_compressed self : silent (Key.is_compressed self).
Proof. unfold Key.is_compressed. silent_method. Qed.
#[local] Hint Resolve silent_is_compressed : silent.

Lemma silent_or_default self ic : silent (Key.or_default self ic).
Proof. unfold Key.or_default. silent_method. Qed.
#[local] Hint Resolve silent_or_default : silent.

Lemma silent_public_pair self : silent (Key.public_pair self).
Proof. unfold Key.public_pair. silent_method. Qed.
#[local] Hint Resolve silent_public_pair : silent.

Lemma silent_wif self ic : silent (Key.wif self ic).
Proof. unfold Key.wif. silent_method. Qed.

Lemma silent_sec self ic : silent (Key.sec self ic).
Proof. unfold Key.sec. silent_method. Qed.
#[local] Hint Resolve silent_sec : silent.

Lemma silent_sec_as_hex self ic : silent (Key.sec_as_hex self ic).
Proof. unfold Key.sec_as_hex. silent_method. Qed.

Lemma silent_sign self digest : silent (Key.sign self digest).
Proof. unfold Key.sign. silent_method. Qed.

Lemma silent_verify self digest sig : silent (Key.verify self digest sig).
Proof. unfold Key.verify. silent_method. Qed.

Lemma read_only_call c h : read_only c = true -> run_call c h = h.
Proof.
  destruct c; try discriminate; intros _; cbn [run_call]; unfold effect;
    first [ apply silent_is_private | apply silent_secret_exponent
          | apply silent_wif | apply silent_public_pair | apply silent_sec
          | apply silent_sec_as_hex | apply silent_sign | apply silent_verify
          | apply silent_is_compressed | reflexivity ].
Qed.

(** X2: the accessors, [wif], [sec], [sec_as_hex], the three subkey methods,
    [sign] and [verify] change nothing at all: after any sequence of such
    calls, on any references and whether they return or raise, the heap is
    the heap before, cache slots included. *)
Theorem read_only_calls_leave_heap (calls : list call) (h : heap) :
  forallb read_only calls = true -> run calls h = h.
Proof.
  revert h. induction calls as [|c calls IH]; intros h; [reflexivity|].
  cbn [forallb]. intros [Hc Hrest]%andb_true_iff.
  cbn [run fold_left]. rewrite (read_only_call c h Hc). apply IH, Hrest.
Qed.

End Silent.

(** ** Signing, then verifying *)

Section SignVerify.

Context {imports : Imports.t}.
Import Bytes32.

(** X3: on a private key that a client holds and a 32-byte digest for
    which the generator returns a pair [(r, s')], [sign] returns the codec
    encoding of that pair, and [verify] of that signature for the same
    digest asks the generator to check, against the multiple of the
    generator by the secret exponent, exactly the pair that the generator
    signed, provided the codec decodes what it encoded; neither call
    changes the heap. *)
Theorem verify_own_signature (h : heap) (self : ref) (o : obj)
    (digest : bytes) (s r s' : Z) :
  reachable h ->
  h !! self = Some o ->
  _secret_exponent o = Some s ->
  length digest = 32%nat ->
  Generator.sign (_generator o) s (from_bytes_32 digest) = Ok (r, s') ->
  Imports.sigdecode_der (Imports.sigencode_der r s') = Ok (r, s') ->
  Key.sign self digest h = (h, Ok (Imports.sigencode_der r s')) /\
  Key.verify self digest (Imports.sigencode_der r s') h
  = (h, Ok (Generator.verify (_generator o)
              (Generator.rmul (_generator o) s) (from_bytes_32 digest)
              (r, s'))).
Proof.
  intros Hreach Hself Hse _ Hsign Hcodec.
  destruct (reachable_valid h Hreach self o Hself)
    as (_ & _ & pp & Hpp & _ & Hs).
  destruct (Hs s Hse) as [_ Hmul].
  split.
  - rewrite (sign_eq h self o Hself), Hse, Hsign. reflexivity.
  - rewrite (verify_eq h self o Hself), Hcodec, Hpp, <- Hmul. reflexivity.
Qed.

End SignVerify.

(** ** The stored flag is the default of every compression argument *)

Section DefaultStyle.

Context {imports : Imports.t}.

Variables (h : heap) (self : ref) (o : obj).
Hypothesis Hself : h !! self = Some o.

Lemma or_default_stored :
  Key.or_default self None h
  = Key.or_default self (Some (_is_compressed o)) h.
Proof using Hself. rewrite !(or_default_eq h self o Hself). reflexivity. Qed.

Lemma sec_stored :
  Key.sec self None h = Key.sec self (Some (_is_compressed o)) h.
Proof using Hself. rewrite !(sec_eq h self o Hself). reflexivity. Qed.

Lemma hash160_stored :
  Key.hash160 self None h = Key.hash160 self (Some (_is_compressed o)) h.
Proof using Hself. rewrite !(hash160_eq h self o _ Hself). reflexivity. Qed.

End DefaultStyle.

Section DefaultStyleAll.

Context {imports : Imports.t}.

(** X5: a call of [wif], [sec], [sec_as_hex], [hash160], [fingerprint] or
    [address] without compression argument is the call with the stored
    flag of the key for argument: same result, same heap. *)
Theorem no_argument_is_stored_flag (h : heap) (self : ref) (o : obj) :
  h !! self = Some o ->
  Key.wif self None h = Key.wif self (Some (_is_compressed o)) h /\
  Key.sec self None h = Key.sec self (Some (_is_compressed o)) h /\
  Key.sec_as_hex self None h
  = Key.sec_as_hex self (Some (_is_compressed o)) h /\
  Key.hash160 self None h = Key.hash160 self (Some (_is_compressed o)) h /\
  Key.fingerprint self None h
  = Key.fingerprint self (Some (_is_compressed o)) h /\
  Key.address self None h = Key.address self (Some (_is_compressed o)) h.
Proof.
  intros Hself.
  pose proof (sec_stored h self o Hself) as Hsec.
  pose proof (hash160_stored h self o Hself) as Hhash.
  split; [|split; [exact Hsec|split; [|split; [exact Hhash|split]]]].
  - rewrite !(wif_eq h self o Hself). reflexivity.
  - unfold Key.sec_as_hex, bind. rewrite Hsec. reflexivity.
  - unfold Key.fingerprint, bind. rewrite Hhash. reflexivity.
  - unfold Key.address, bind. rewrite (deref_eq h self o Hself), Hhash.
    reflexivity.
Qed.

End DefaultStyleAll.

(** ** Keys decoded from SEC bytes *)

Section FromSec.

Context {imports : Imports.t}.


End FromSec.

(** ** The public copy *)

Section PublicCopy.

Context {imports : Imports.t}.

Lemma public_copy_eq (h : heap) (self : ref) (o : obj) :
  h !! self = Some o ->
  Key.public_copy self h =
  match _secret_exponent o with
  | None => (h, Ok self)
  | Some _ =>
      Key.new (__class__ o) None (_public_pair o) (_is_compressed o) h
  end.
Proof.
  intros Hself. unfold Key.public_copy, bind.
  rewrite (secret_exponent_eq h self o Hself).
  destruct (_secret_exponent o); [|reflexivity].
  rewrite (deref_eq h self o Hself), (public_pair_eq h self o Hself),
    (is_compressed_eq h self o Hself).
  reflexivity.
Qed.

Lemma hash160_run (h : heap) (self : ref) (o : obj) ic :
  heap_coherent h -> h !! self = Some o ->
  Key.hash160 self ic h
  = (effect (Key.hash160 self ic) h,
     result_map Some (digest_of o (style_of o ic))).
Proof.
  intros Hcoh Hself. unfold effect.
  rewrite <- (hash160_result h self o ic Hcoh Hself).
  destruct (Key.hash160 self ic h). reflexivity.
Qed.

(** X4: [public_copy] of a key without secret exponent returns the key
    itself and changes nothing.  On a private key that a client holds it
    never raises: it creates a key of the same class with the same public
    pair and compression flag, no secret exponent and empty cache slots.
    The copy is its own public copy, cannot sign, has no WIF, and answers
    [sec], [hash160] and [verify] as the original does. *)
Theorem public_copy_spec (h : heap) (self : ref) (o : obj) :
  reachable h ->
  h !! self = Some o ->
  (_secret_exponent o = None -> Key.public_copy self h = (h, Ok self)) /\
  (forall s, _secret_exponent o = Some s ->
     exists pp copy,
       _public_pair o = Some pp /\
       copy = fresh_key (__class__ o) None pp (_is_compressed o) /\
       Key.public_copy self h = (h ++ [copy], Ok (length h)) /\
       Key.public_copy (length h) (h ++ [copy]) = (h ++ [copy], Ok (length h)) /\
       (forall digest,
           Key.sign (length h) digest (h ++ [copy])
           = (h ++ [copy], Raise NotPrivate)) /\
       (forall ic, Key.wif (length h) ic (h ++ [copy]) = (h ++ [copy], Ok None)) /\
       (forall ic,
           snd (Key.sec (length h) ic (h ++ [copy])) = snd (Key.sec self ic h)) /\
       (forall ic,
           snd (Key.hash160 (length h) ic (h ++ [copy]))
           = snd (Key.hash160 self ic h)) /\
       (forall digest sig,
           snd (Key.verify (length h) digest sig (h ++ [copy]))
           = snd (Key.verify self digest sig h))).
Proof.
  intros Hreach Hself. rewrite (public_copy_eq h self o Hself).
  split; [intros ->; reflexivity|].
  intros s Hse. rewrite Hse.
  destruct (reachable_valid h Hreach self o Hself)
    as (Hg & _ & pp & Hpp & Hv & _).
  set (copy := fresh_key (__class__ o) None pp (_is_compressed o)).
  assert (Hnew : Key.new (__class__ o) None (_public_pair o)
                   (_is_compressed o) h = (h ++ [copy], Ok (length h))).
  { rewrite Hpp, new_unfold, init_public, <- Hg, Hv. reflexivity. }
  pose proof (lookup_last h copy) as Hcopy.
  assert (Hsec : forall c, sec_of copy c = sec_of o c).
  { intros c. unfold sec_of. rewrite Hpp. reflexivity. }
  exists pp, copy. split; [exact Hpp|]. split; [reflexivity|].
  split; [exact Hnew|]. split; [|split; [|split; [|split; [|split]]]].
  - rewrite (public_copy_eq _ _ copy Hcopy). reflexivity.
  - intros digest. rewrite (sign_eq _ _ copy Hcopy). reflexivity.
  - intros ic. rewrite (wif_eq _ _ copy Hcopy). reflexivity.
  - intros ic. rewrite (sec_eq _ _ copy Hcopy), (sec_eq h self o Hself).
    cbn [snd]. rewrite Hsec. reflexivity.
  - intros ic.
    assert (Hreach' : reachable (h ++ [copy])).
    { replace (h ++ [copy]) with (run [call_public_copy self] h).
      - apply reachable_run, Hreach.
      - cbn [run fold_left run_call]. unfold effect.
        rewrite (public_copy_eq h self o Hself), Hse, Hnew. reflexivity. }
    rewrite (hash160_result _ _ copy ic (reachable_coherent _ Hreach') Hcopy).
    rewrite (hash160_result h self o ic (reachable_coherent _ Hreach) Hself).
    unfold digest_of. rewrite Hsec. reflexivity.
  - intros digest sig.
    rewrite (verify_eq _ _ copy Hcopy), (verify_eq h self o Hself).
    cbn [snd]. rewrite Hpp.
    replace (_generator copy) with (_generator o) by exact Hg.
    reflexivity.
Qed.

End PublicCopy.

(** ** Fingerprint and address *)

Section Digests.

Context {imports : Imports.t}.

(** X7: on a heap that a client has built, [fingerprint] returns the first
    four bytes of the digest of the style, and [address] returns what
    [address.for_p2pkh] of the network makes of that digest, whether the
    slot was filled before the call or not; both raise what the digest
    raises, and both leave the heap that [hash160] leaves.  A fingerprint
    has at most four bytes. *)
Theorem fingerprint_and_address (h : heap) (self : ref) (o : obj)
    (is_compressed : option bool) :
  reachable h ->
  h !! self = Some o ->
  Key.fingerprint self is_compressed h
  = (effect (Key.hash160 self is_compressed) h,
     result_map (take 4) (digest_of o (style_of o is_compressed))) /\
  Key.address self is_compressed h
  = (effect (Key.hash160 self is_compressed) h,
     result_map (Network.address_for_p2pkh (_network o))
       (digest_of o (style_of o is_compressed))) /\
  (forall d, snd (Key.fingerprint self is_compressed h) = Ok d ->
             (length d <= 4)%nat).
Proof.
  intros Hreach Hself.
  pose proof (hash160_run h self o is_compressed
                (reachable_coherent h Hreach) Hself) as Hrun.
  assert (Hfp : Key.fingerprint self is_compressed h
                = (effect (Key.hash160 self is_compressed) h,
                   result_map (take 4)
                     (digest_of o (style_of o is_compressed)))).
  { unfold Key.fingerprint, bind. rewrite Hrun.
    destruct (digest_of o _); reflexivity. }
  split; [exact Hfp|]. split.
  - unfold Key.address, bind. rewrite (deref_eq h self o Hself), Hrun.
    destruct (digest_of o _); reflexivity.
  - intros d. rewrite Hfp. cbn [snd].
    destruct (digest_of o _) as [v|e]; [|discriminate].
    intros [= <-]. rewrite length_take. lia.
Qed.

End Digests.

(** ** One key at a time *)

Section Apart.

Context {imports : Imports.t}.

Lemma apart_ret {A} r (a : A) : apart r (ret a).
Proof. intros h h' res i o [= <- _] Hi _. exact Hi. Qed.

Lemma apart_raise {A} r e : apart r (@raise A e).
Proof. intros h h' res i o [= <- _] Hi _. exact Hi. Qed.

Lemma apart_lift {A} r (x : result A) : apart r (lift x).
Proof. intros h h' res i o [= <- _] Hi _. exact Hi. Qed.

Lemma apart_deref r self : apart r (deref self).
Proof.
  intros h h' res i o. unfold deref.
  destruct (h !! self); intros [= <- _] Hi _; exact Hi.
Qed.

Lemma apart_bind {A B} r (c : M A) (k : A -> M B) :
  apart r c -> (forall a, apart r (k a)) -> apart r (bind c k).
Proof.
  intros Hc Hk h h' res i o. unfold bind.
  destruct (c h) as [h1 [a|e]] eqn:Hrun.
  - intros Hka Hi Hne. eapply Hk; [eassumption| |exact Hne].
    eapply Hc; eassumption.
  - intros [= <- _] Hi Hne. eapply Hc; eassumption.
Qed.

Lemma apart_new r class_ se pp ic : apart r (Key.new class_ se pp ic).
Proof.
  intros h h' res i o. rewrite new_unfold.
  destruct (Key.__init__ class_ se pp ic); intros [= <- _] Hi _;
    [|exact Hi].
  rewrite lookup_app_l by (eapply lookup_lt_Some; eassumption). exact Hi.
Qed.

Lemma apart_hash160 self ic : apart (Some self) (Key.hash160 self ic).
Proof.
  intros h h' res i o Hrun Hi Hne.
  destruct (h !! self) as [o0|] eqn:Hself.
  - rewrite (hash160_eq h self o0 ic Hself) in Hrun.
    destruct (slot _ o0); [injection Hrun as <- _; exact Hi|].
    destruct (digest_of o0 _); injection Hrun as <- _; [|exact Hi].
    rewrite list_lookup_insert_ne by congruence. exact Hi.
  - pose proof (hash160_dangling h self ic Hself) as Hfst.
    rewrite Hrun in Hfst. cbn in Hfst. subst h'. exact Hi.
Qed.

Create HintDb apart.
#[local] Hint Resolve apart_ret apart_raise apart_lift apart_deref
  apart_new apart_hash160 : apart.

Ltac apart_step :=
  cbv zeta;
  match goal with
  | |- apart _ _ => solve [auto with apart]
  | |- apart _ (bind _ _) => apply apart_bind; [|intros]
  | |- apart _ (match ?x with _ => _ end) => destruct x
  end.

Ltac apart_method := intros; repeat apart_step.

Lemma apart_secret_exponent r self : apart r (Key.secret_exponent self).
Proof. unfold Key.secret_exponent. apart_method. Qed.
#[local] Hint Resolve apart_secret_exponent : apart.

Lemma apart_is_private r self : apart r (Key.is_private self).
Proof. unfold Key.is_private. apart_method. Qed.
#[local] Hint Resolve apart_is_private : apart.

Lemma apart_is_compressed r self : apart r (Key.is_compressed self).
Proof. unfold Key.is_compressed. apart_method. Qed.
#[local] Hint Resolve apart_is_compressed : apart.

Lemma apart_or_default r self ic : apart r (Key.or_default self ic).
Proof. unfold Key.or_default. apart_method. Qed.
#[local] Hint Resolve apart_or_default : apart.

Lemma apart_public_pair r self : apart r (Key.public_pair self).
Proof. unfold Key.public_pair. apart_method. Qed.
#[local] Hint Resolve apart_public_pair : apart.

Lemma apart_from_sec r class_ s : apart r (Key.from_sec class_ s).
Proof. unfold Key.from_sec. apart_method. Qed.

Lemma apart_wif r self ic : apart r (Key.wif self ic).
Proof. unfold Key.wif. apart_method. Qed.
#[local] Hint Resolve apart_wif : apart.

Lemma apart_sec r self ic : apart r (Key.sec self ic).
Proof. unfold Key.sec. apart_method. Qed.
#[local] Hint Resolve apart_sec : apart.

Lemma apart_sec_as_hex r self ic : apart r (Key.sec_as_hex self ic).
Proof. unfold Key.sec_as_hex. apart_method. Qed.
#[local] Hint Resolve apart_sec_as_hex : apart.

Lemma apart_fingerprint self ic :
  apart (Some self) (Key.fingerprint self ic).
Proof. unfold Key.fingerprint. apart_method. Qed.

Lemma apart_address self ic : apart (Some self) (Key.address self ic).
Proof. unfold Key.address. apart_method. Qed.
#[local] Hint Resolve apart_address : apart.

Lemma apart_as_text self : apart (Some self) (Key.as_text self).
Proof. unfold Key.as_text. apart_method. Qed.
#[local] Hint Resolve apart_as_text : apart.

Lemma apart_public_copy r self : apart r (Key.public_copy self).
Proof. unfold Key.public_copy. apart_method. Qed.

Lemma apart_sign r self digest : apart r (Key.sign self digest).
Proof. unfold Key.sign. apart_method. Qed.

Lemma apart_verify r self digest sig : apart r (Key.verify self digest sig).
Proof. unfold Key.verify. apart_method. Qed.

Lemma apart_repr_text r o : apart (Some r) (repr_text r o).
Proof. unfold repr_text. apart_method. Qed.

Lemma repr_unfold self :
  Key.__repr__ self =
  let* r := Key.public_copy self in
  let* o := deref r in
  let* s := repr_text r o in
  let* private := Key.is_private self in
  if private then ret ("private_for <" ++ Key.percent_s s ++ ">")%string
  else ret ("<" ++ Key.percent_s s ++ ">")%string.
Proof. reflexivity. Qed.

(** The public copy is the key itself or a new object. *)
Lemma public_copy_ref self h h1 r :
  Key.public_copy self h = (h1, Ok r) ->
  (r = self /\ h1 = h) \/ (r = length h /\ exists o, h1 = h ++ [o]).
Proof.
  destruct (h !! self) as [o|] eqn:Hself.
  2:{ unfold Key.public_copy, Key.secret_exponent, bind, deref.
      rewrite Hself. discriminate. }
  rewrite (public_copy_eq h self o Hself).
  destruct (_secret_exponent o); [|intros [= <- <-]; left; split; reflexivity].
  rewrite new_unfold.
  destruct (Key.__init__ _ _ _ _) as [o'|e]; [|discriminate].
  intros [= <- <-]. right. split; [reflexivity|]. exists o'. reflexivity.
Qed.

Lemma apart_repr self : apart (Some self) (Key.__repr__ self).
Proof.
  intros h h' res i o. rewrite repr_unfold. unfold bind at 1.
  destruct (Key.public_copy self h) as [h1 [r|e]] eqn:Hcopy.
  - intros Hrest Hi Hne.
    assert (Hi1 : h1 !! i = Some o).
    { eapply (apart_public_copy (Some self)); eassumption. }
    assert (Hr : Some i <> Some r).
    { destruct (public_copy_ref self h h1 r Hcopy) as [[-> _] | [-> _]];
        [exact Hne|].
      apply lookup_lt_Some in Hi. intros [= ->]. lia. }
    assert (Hrest' : apart (Some r)
              (let* o := deref r in
               let* s := repr_text r o in
               let* private := Key.is_private self in
               if private
               then ret ("private_for <" ++ Key.percent_s s ++ ">")%string
               else ret ("<" ++ Key.percent_s s ++ ">")%string)).
    { apply apart_bind; [apply apart_deref|]. intros o0.
      apply apart_bind; [apply apart_repr_text|]. intros s.
      apply apart_bind; [apply apart_is_private|].
      intros [|]; apply apart_ret. }
    eapply Hrest'; eassumption.
  - intros [= <- _] Hi Hne.
    eapply (apart_public_copy (Some self)); eassumption.
Qed.

(** X10: a call never changes another key.  Whatever method a client calls
    on a key, with whatever arguments, and whether it returns or raises,
    every other object of the heap is afterwards exactly what it was, cache
    slots included; a constructor call or [from_sec] changes no existing
    object at all. *)
Theorem calls_leave_other_keys (c : call) (h : heap) (i : ref) (o : obj) :
  h !! i = Some o ->
  target c <> Some i ->
  run_call c h !! i = Some o.
Proof.
  intros Hi Hne.
  assert (Hgen : forall A (m : M A),
             apart (target c) m -> effect m h !! i = Some o).
  { intros A m Hm. unfold effect. destruct (m h) as [h' res] eqn:Hrun.
    eapply Hm; [eassumption | exact Hi | congruence]. }
  destruct c; cbn [run_call]; apply Hgen; cbn [target];
    first [ apply apart_new | apply apart_from_sec | apply apart_is_private
          | apply apart_secret_exponent | apply apart_wif
          | apply apart_public_pair | apply apart_sec | apply apart_sec_as_hex
          | apply apart_hash160 | apply apart_fingerprint
          | apply apart_address | apply apart_as_text
          | apply apart_public_copy | apply apart_sign | apply apart_verify
          | apply apart_is_compressed | apply apart_repr | apply apart_ret ].
Qed.

End Apart.

(** ** The text of a key *)

Section AsText.

Context {imports : Imports.t}.

Lemma sec_as_hex_eq (h : heap) (self : ref) (o : obj) ic :
  h !! self = Some o ->
  Key.sec_as_hex self ic h =
  (h, try* s := sec_of o (style_of o ic) in
      try* blob := expect s in
      Ok (Network.sec_text_for_blob (_network o) blob)).
Proof.
  intros Hself. unfold Key.sec_as_hex, bind.
  rewrite (sec_eq h self o Hself).
  destruct (sec_of o _) as [[blob|]|e]; cbn [result_bind expect];
    rewrite ?(deref_eq h self o Hself); reflexivity.
Qed.

Lemma address_not_None (h h' : heap) (self : ref) (o : obj) ic :
  h !! self = Some o ->
  (let* a := Key.address self ic in ret (Some a)) h <> (h', Ok None).
Proof.
  intros Hself. unfold Key.address, bind.
  rewrite (deref_eq h self o Hself).
  destruct (Key.hash160 self ic h) as [h1 [[d|]|e]]; discriminate.
Qed.

(** X6: [as_text] never returns [None].  On a private key that a client
    holds it is [wif()]: the test on the secret exponent is a truth test,
    and the constructor has excluded 0.  On a key without secret exponent
    it is the text of [sec_as_hex()] when that is not empty, and the
    address otherwise; an exception of [sec_as_hex] leaves [as_text]. *)
Theorem as_text_dispatch (h : heap) (self : ref) (o : obj) :
  h !! self = Some o ->
  (forall h', Key.as_text self h <> (h', Ok None)) /\
  (reachable h -> _secret_exponent o <> None ->
     Key.as_text self h = Key.wif self None h) /\
  (_secret_exponent o = None ->
     (forall t, Key.sec_as_hex self None h = (h, Ok t) ->
                text_truthy t = true ->
                Key.as_text self h = (h, Ok (Some t))) /\
     (forall t, Key.sec_as_hex self None h = (h, Ok t) ->
                text_truthy t = false ->
                Key.as_text self h
                = (let* a := Key.address self None in ret (Some a)) h) /\
     (forall e, Key.sec_as_hex self None h = (h, Raise e) ->
                Key.as_text self h = (h, Raise e))).
Proof.
  intros Hself.
  assert (Hunfold :
    Key.as_text self h =
    if (match _secret_exponent o with
        | Some s => negb (s =? 0)
        | None => false
        end)
    then Key.wif self None h
    else
      match Key.sec_as_hex self None h with
      | (h1, Ok t) =>
          if text_truthy t then (h1, Ok (Some t))
          else (let* a := Key.address self None in ret (Some a)) h1
      | (h1, Raise e) => (h1, Raise e)
      end).
  { unfold Key.as_text at 1. unfold bind at 1.
    rewrite (secret_exponent_eq h self o Hself).
    destruct (match _secret_exponent o with
              | Some s => negb (s =? 0)
              | None => false
              end); [reflexivity|].
    unfold bind at 1.
    destruct (Key.sec_as_hex self None h) as [h1 [t|e]]; [|reflexivity].
    destruct (text_truthy t); reflexivity. }
  split; [|split].
  - intros h'. rewrite Hunfold.
    destruct (match _secret_exponent o with
              | Some s => negb (s =? 0)
              | None => false
              end) eqn:Htruth.
    + rewrite (wif_eq h self o Hself).
      destruct (_secret_exponent o) as [s|]; [|discriminate].
      destruct (Bytes32.to_bytes_32 s); discriminate.
    + rewrite (sec_as_hex_eq h self o None Hself).
      destruct (try* s := sec_of o _ in _) as [t|e]; [|discriminate].
      destruct (text_truthy t); [discriminate|].
      apply address_not_None with (o := o), Hself.
  - intros Hreach Hprivate. rewrite Hunfold.
    destruct (_secret_exponent o) as [s|] eqn:Hse; [|congruence].
    destruct (reachable_valid h Hreach self o Hself)
      as (_ & _ & pp & _ & _ & Hs).
    destruct (Hs s Hse) as [Hrange _].
    assert (Hnz : (s =? 0) = false) by (apply Z.eqb_neq; lia).
    rewrite Hnz. reflexivity.
  - intros Hse. rewrite Hunfold, Hse.
    split; [|split].
    + intros t -> ->. reflexivity.
    + intros t -> ->. reflexivity.
    + intros e ->. reflexivity.
Qed.

End AsText.

(** ** The printed form *)

Section Repr.

Context {imports : Imports.t}.

#[local] Hint Resolve keeps_as_text keeps_sec : keeps.

Lemma keeps_repr_text r o : keeps (repr_text r o).
Proof. unfold repr_text. keeps_method. Qed.

Lemma repr_after_copy (h h1 : heap) (self r : ref) (copy : obj) :
  Key.public_copy self h = (h1, Ok r) ->
  h1 !! r = Some copy ->
  Key.__repr__ self h =
  match repr_text r copy h1 with
  | (h2, Ok t) =>
      match Key.is_private self h2 with
      | (h3, Ok private) =>
          (h3, Ok (if private
                   then ("private_for <" ++ Key.percent_s t ++ ">")%string
                   else ("<" ++ Key.percent_s t ++ ">")%string))
      | (h3, Raise e) => (h3, Raise e)
      end
  | (h2, Raise e) => (h2, Raise e)
  end.
Proof.
  intros Hcopy Hr. rewrite repr_unfold. unfold bind at 1. rewrite Hcopy.
  unfold bind at 1. rewrite (deref_eq h1 r copy Hr).
  unfold bind at 1.
  destruct (repr_text r copy h1) as [h2 [t|e]]; [|reflexivity].
  unfold bind.
  destruct (Key.is_private self h2) as [h3 [[|]|e]]; reflexivity.
Qed.

(** The public copy of a private key that a client holds. *)
Lemma public_copy_new (h : heap) (self : ref) (o : obj) (s : Z) :
  reachable h -> h !! self = Some o -> _secret_exponent o = Some s ->
  exists pp,
    _public_pair o = Some pp /\
    Key.public_copy self h
    = (h ++ [fresh_key (__class__ o) None pp (_is_compressed o)],
       Ok (length h)).
Proof.
  intros Hreach Hself Hse.
  destruct (reachable_valid h Hreach self o Hself)
    as (Hg & _ & pp & Hpp & Hv & _).
  exists pp. split; [exact Hpp|].
  rewrite (public_copy_eq h self o Hself), Hse, Hpp, new_unfold, init_public,
    <- Hg, Hv.
  reflexivity.
Qed.

(** X9: the printed form of a private key that a client holds is the
    printed form of its public copy with [private_for] in front: the text
    between the angle brackets is computed on the copy, from the public
    pair, and an exception on the copy is the exception of the call.  The
    call creates the copy and changes no object that was there before, the
    key itself included: what it caches, it caches on the copy. *)
Theorem repr_of_private_key (h : heap) (self : ref) (o : obj) (s : Z) :
  reachable h ->
  h !! self = Some o ->
  _secret_exponent o = Some s ->
  exists pp copy,
    _public_pair o = Some pp /\
    copy = fresh_key (__class__ o) None pp (_is_compressed o) /\
    Key.__repr__ self h
    = (effect (Key.__repr__ (length h)) (h ++ [copy]),
       result_map (String.append "private_for ")
         (snd (Key.__repr__ (length h) (h ++ [copy])))) /\
    (forall i o', h !! i = Some o' ->
                  effect (Key.__repr__ self) h !! i = Some o').
Proof.
  intros Hreach Hself Hse.
  destruct (public_copy_new h self o s Hreach Hself Hse) as (pp & Hpp & Hcopy).
  set (copy := fresh_key (__class__ o) None pp (_is_compressed o)) in *.
  pose proof (lookup_last h copy) as Hr.
  assert (Hcopy' : Key.public_copy (length h) (h ++ [copy])
                   = (h ++ [copy], Ok (length h))).
  { rewrite (public_copy_eq _ _ copy Hr). reflexivity. }
  assert (Hself1 : (h ++ [copy]) !! self = Some o).
  { rewrite lookup_app_l by (eapply lookup_lt_Some; eassumption).
    exact Hself. }
  pose proof (repr_after_copy h _ self _ copy Hcopy Hr) as Hleft.
  pose proof (repr_after_copy _ _ (length h) _ copy Hcopy' Hr) as Hright.
  destruct (repr_text (length h) copy (h ++ [copy])) as [h2 [t|e]] eqn:Hbody.
  - destruct (keeps_repr_text _ _ _ _ _ Hbody) as [Hext _].
    destruct (Hext self o Hself1) as (o2 & Hself2 & (_ & Hse2 & _) & _).
    destruct (Hext _ copy Hr) as (c2 & Hr2 & (_ & Hsec2 & _) & _).
    rewrite (is_private_eq h2 self o2 Hself2), Hse2, Hse in Hleft.
    rewrite (is_private_eq h2 _ c2 Hr2), Hsec2 in Hright.
    cbn [_secret_exponent copy fresh_key] in Hright.
    exists pp, copy. split; [exact Hpp|]. split; [reflexivity|]. split.
    + rewrite Hleft. unfold effect. rewrite Hright. reflexivity.
    + intros i o' Hi. unfold effect. rewrite Hleft. cbn [fst].
      eapply (apart_repr_text (length h) copy); [exact Hbody| |].
      * rewrite lookup_app_l by (eapply lookup_lt_Some; eassumption).
        exact Hi.
      * apply lookup_lt_Some in Hi. intros [= ->]. lia.
  - exists pp, copy. split; [exact Hpp|]. split; [reflexivity|]. split.
    + rewrite Hleft. unfold effect. rewrite Hright. reflexivity.
    + intros i o' Hi. unfold effect. rewrite Hleft. cbn [fst].
      eapply (apart_repr_text (length h) copy); [exact Hbody| |].
      * rewrite lookup_app_l by (eapply lookup_lt_Some; eassumption).
        exact Hi.
      * apply lookup_lt_Some in Hi. intros [= ->]. lia.
Qed.

End Repr.

(** * The further properties on the sample collaborators *)

Section FurtherOnSamples.

Import Samples Bytes32.

Lemma reachable_keys_valid_witness :
  (reachable (imports := imports) heap1 /\
   heap1 !! 0%nat = Some private_key) /\
  1 <= 5 < Generator.order (_generator private_key).
Proof.
  split; [split; [exact heap1_reachable | reflexivity]|].
  destruct (reachable_keys_valid (imports := imports) heap1 0%nat private_key
              heap1_reachable ltac:(reflexivity))
    as (_ & _ & x & y & _ & _ & Hs).
  destruct (Hs 5 eq_refl) as [Hrange _]. exact Hrange.
Defined.

Lemma read_only_calls_leave_heap_witness :
  forallb read_only
    [call_sign 0%nat digest1; call_wif 0%nat None;
     call_verify 1%nat digest1 []; call_sec 1%nat (Some true)] = true /\
  run (imports := imports)
    [call_sign 0%nat digest1; call_wif 0%nat None;
     call_verify 1%nat digest1 []; call_sec 1%nat (Some true)] heap1
  = heap1.
Proof.
  split; [reflexivity|].
  apply (read_only_calls_leave_heap (imports := imports)). reflexivity.
Defined.

Lemma verify_own_signature_witness :
  (reachable (imports := imports) heap1 /\
   heap1 !! 0%nat = Some private_key /\
   _secret_exponent private_key = Some 5 /\
   length digest1 = 32%nat /\
   Generator.sign (_generator private_key) 5 (from_bytes_32 digest1)
   = Ok (13, 18) /\
   decode_rs (encode_rs 13 18) = Ok (13, 18)) /\
  Key.sign (imports := imports) 0%nat digest1 heap1
  = (heap1, Ok (encode_rs 13 18)) /\
  Key.verify (imports := imports) 0%nat digest1 (encode_rs 13 18) heap1
  = (heap1, Ok true).
Proof.
  assert (Hsign : Generator.sign (_generator private_key) 5
                    (from_bytes_32 digest1) = Ok (13, 18))
    by (vm_compute; reflexivity).
  assert (Hcodec : decode_rs (encode_rs 13 18) = Ok (13, 18))
    by (vm_compute; reflexivity).
  split.
  { split; [exact heap1_reachable|].
    split; [reflexivity|]. split; [reflexivity|]. split; [reflexivity|].
    split; [exact Hsign | exact Hcodec]. }
  exact (verify_own_signature (imports := imports) heap1 0%nat private_key
           digest1 5 13 18 heap1_reachable eq_refl eq_refl eq_refl
           Hsign Hcodec).
Defined.

Lemma public_copy_spec_witness :
  (reachable (imports := imports) heap1 /\
   heap1 !! 1%nat = Some public_key /\
   _secret_exponent public_key = None) /\
  Key.public_copy (imports := imports) 1%nat heap1 = (heap1, Ok 1%nat).
Proof.
  split; [split; [exact heap1_reachable | split; reflexivity]|].
  destruct (public_copy_spec (imports := imports) heap1 1%nat public_key
              heap1_reachable eq_refl) as [Hpublic _].
  exact (Hpublic eq_refl).
Defined.

Lemma no_argument_is_stored_flag_witness :
  heap1 !! 0%nat = Some private_key /\
  Key.wif 0%nat None heap1 = Key.wif 0%nat (Some true) heap1 /\
  Key.hash160 (imports := imports) 0%nat None heap1
  = Key.hash160 (imports := imports) 0%nat (Some true) heap1.
Proof.
  split; [reflexivity|].
  destruct (no_argument_is_stored_flag (imports := imports)
              heap1 0%nat private_key eq_refl)
    as (Hwif & _ & _ & Hhash & _).
  split; [exact Hwif | exact Hhash].
Defined.

Lemma as_text_dispatch_witness :
  (heap1 !! 0%nat = Some private_key /\
   reachable (imports := imports) heap1 /\
   _secret_exponent private_key <> None) /\
  Key.as_text (imports := imports) 0%nat heap1 = Key.wif 0%nat None heap1.
Proof.
  assert (Hprivate : _secret_exponent private_key <> None) by discriminate.
  split; [split; [reflexivity | split; [exact heap1_reachable|exact Hprivate]]|].
  destruct (as_text_dispatch (imports := imports) heap1 0%nat private_key
              eq_refl) as (_ & Hwif & _).
  exact (Hwif heap1_reachable Hprivate).
Defined.

Lemma fingerprint_and_address_witness :
  (reachable (imports := imports) heap1 /\
   heap1 !! 0%nat = Some private_key) /\
  snd (Key.fingerprint (imports := imports) 0%nat None heap1)
  = Ok (take 4 (fold_hash (x02 :: big_endian 32 12))).
Proof.
  split; [split; [exact heap1_reachable | reflexivity]|].
  destruct (fingerprint_and_address (imports := imports)
              heap1 0%nat private_key None heap1_reachable eq_refl)
    as (Hfp & _ & _).
  rewrite Hfp. reflexivity.
Defined.


Lemma repr_of_private_key_witness :
  (reachable (imports := imports) heap1 /\
   heap1 !! 0%nat = Some private_key /\
   _secret_exponent private_key = Some 5) /\
  exists pp copy,
    _public_pair private_key = Some pp /\
    copy = fresh_key (imports := imports) (__class__ private_key) None pp
             (_is_compressed private_key) /\
    Key.__repr__ (imports := imports) 0%nat heap1
    = (effect (Key.__repr__ (imports := imports) (length heap1))
         (heap1 ++ [copy]),
       result_map (String.append "private_for ")
         (snd (Key.__repr__ (imports := imports) (length heap1)
                 (heap1 ++ [copy])))) /\
    (forall i o', heap1 !! i = Some o' ->
       effect (Key.__repr__ (imports := imports) 0%nat) heap1 !! i = Some o').
Proof.
  split; [split; [exact heap1_reachable | split; reflexivity]|].
  exact (repr_of_private_key (imports := imports) heap1 0%nat private_key 5
           heap1_reachable eq_refl eq_refl).
Defined.

Lemma calls_leave_other_keys_witness :
  (heap1 !! 1%nat = Some public_key /\
   target (call_hash160 0%nat None) <> Some 1%nat) /\
  run_call (imports := imports) (call_hash160 0%nat None) heap1 !! 1%nat
  = Some public_key.
Proof.
  assert (Hne : target (call_hash160 0%nat None) <> Some 1%nat)
    by discriminate.
  split; [split; [reflexivity | exact Hne]|].
  exact (calls_leave_other_keys (imports := imports)
           (call_hash160 0%nat None) heap1 1%nat public_key eq_refl Hne).
Defined.

End FurtherOnSamples.
